(** * RAG chat server (server/app.py): a shallow embedding and its properties

    The server keeps three module-level globals ([docs], [embs], [index]) and
    exposes four handlers ([upload], [build], [ask], [reset]).  The handlers
    talk to collaborators that live outside the repository: the tiktoken
    tokenizer, the document parsers, the OpenAI embedding and chat endpoints
    and the faiss library.  Those are gathered in the [Collaborators]
    interface below; everything written in app.py itself is translated
    function by function.

    A handler is a function from the globals to an outcome and the globals
    after it: the only [await] of the module is the read of an uploaded
    file, and requests are taken one at a time, as the specification assumes
    of its callers. *)

From Stdlib Require Import String Ascii.
From Stdlib Require Import List ZArith NArith Lia Bool Arith.
From Stdlib Require Import DecimalString.
From Stdlib.Strings Require Byte.
From Equations Require Import Equations.
Import ListNotations.

Set Implicit Arguments.

(** ** Python values *)

Module Py.

(** A [str] is a sequence of Unicode code points. *)
Definition char := N.
Definition str := list char.
Definition bytes := list Byte.byte.

(** String literals of the source. *)
Definition lit (s : string) : str :=
  map N_of_ascii (list_ascii_of_string s).

(** [str.isspace] on one code point: the table behind
    [Py_UNICODE_ISSPACE], which [str.strip()] uses. *)
Definition isspace (c : char) : bool :=
  ((9 <=? c) && (c <=? 13) || (28 <=? c) && (c <=? 32)
   || (c =? 133) || (c =? 160) || (c =? 5760)
   || (8192 <=? c) && (c <=? 8202)
   || (c =? 8232) || (c =? 8233) || (c =? 8239) || (c =? 8287)
   || (c =? 12288))%N.

Fixpoint lstrip (s : str) : str :=
  match s with
  | [] => []
  | c :: s' => if isspace c then lstrip s' else s
  end.

Definition rstrip (s : str) : str := rev (lstrip (rev s)).

(** [s.strip()] *)
Definition strip (s : str) : str := rstrip (lstrip s).

(** Truth value of a string or list: non-empty. *)
Definition truthy {A} (l : list A) : bool :=
  match l with [] => false | _ :: _ => true end.

(** [s.lower()] on the ASCII letters.  The only other code point whose
    lower case is an ASCII letter is the Kelvin sign (to k), and no
    suffix tested by the source contains a k, so the suffix tests below are
    not affected. *)
Definition lower_char (c : char) : char :=
  (if (65 <=? c) && (c <=? 90) then c + 32 else c)%N.
Definition lower (s : str) : str := map lower_char s.

Fixpoint str_eqb (a b : str) : bool :=
  match a, b with
  | [], [] => true
  | x :: a', y :: b' => (x =? y)%N && str_eqb a' b'
  | _, _ => false
  end.

(** [s.endswith(suffix)] *)
Definition endswith (s suffix : str) : bool :=
  (length suffix <=? length s) &&
  str_eqb (skipn (length s - length suffix) s) suffix.

(** [sep.join(parts)] *)
Fixpoint join (sep : str) (parts : list str) : str :=
  match parts with
  | [] => []
  | [p] => p
  | p :: rest => p ++ sep ++ join sep rest
  end.

(** [l[i:i+k]] for non-negative [i] and [k]: slices never raise. *)
Definition slice {A} (l : list A) (i k : nat) : list A :=
  firstn k (skipn i l).

(** [l[j]] with Python's negative indices; [None] stands for IndexError. *)
Definition getitem {A} (l : list A) (j : Z) : option A :=
  if (0 <=? j)%Z then nth_error l (Z.to_nat j)
  else if (- Z.of_nat (length l) <=? j)%Z
       then nth_error l (Z.to_nat (Z.of_nat (length l) + j))
       else None.

(** [str(n)] for an int, as an f-string renders it. *)
Definition str_of_int (n : Z) : str :=
  lit (NilZero.string_of_int (Z.to_int n)).

(** [enumerate(l)] *)
Fixpoint enumerate_from {A} (i : Z) (l : list A) : list (Z * A) :=
  match l with
  | [] => []
  | x :: l' => (i, x) :: enumerate_from (i + 1) l'
  end.
Definition enumerate {A} (l : list A) : list (Z * A) := enumerate_from 0 l.

(** [range(0, n, step)] for a positive step. *)
Definition range_step (n step : nat) : list nat :=
  map (fun k => k * step) (seq 0 ((n + step - 1) / step)).

End Py.
Import Py.

(** ** Exceptions and outcomes *)

Inductive exn : Type :=
| IndexError
| ValueError
| AttributeError
| External (what : string).

Inductive outcome (A : Type) : Type :=
| Ok (a : A)
| Raise (e : exn).
Arguments Ok {A} a.
Arguments Raise {A} e.

Definition raises {A} (o : outcome A) : bool :=
  match o with Ok _ => false | Raise _ => true end.

(** ** Constants of the module *)

Definition CHUNK_TOKENS : Z := 400.
Definition CHUNK_OVERLAP : Z := 60.
Definition TOP_K_DEFAULT : Z := 6.

(** ** Records exchanged with the outside *)

Record Message := { role : str; content : str }.

(** What the process asked of the two remote endpoints, oldest first. *)
Inductive Call : Type :=
| EmbedCall (input : list str)
| ChatCall (messages : list Message).

Definition Trace := list Call.

(** A parsed .docx document, as python-docx presents it: the text of each
    paragraph, and for each table its rows of cell texts. *)
Record Docx := {
  paragraphs : list str;
  tables : list (list (list str))
}.

(** The collaborators.  None of this code is in the repository; each field is
    the entry point the source calls.  The two remote endpoints answer as a
    function of everything asked before, so that the same request may succeed
    once and fail later. *)
Class Collaborators := {
  float32 : Type;
  page : Type;
  (* bytes.decode("utf-8", errors="ignore") *)
  utf8_decode_ignore : bytes -> str;
  (* PdfReader(io.BytesIO(b)).pages *)
  PdfReader_pages : bytes -> outcome (list page);
  (* p.extract_text() *)
  page_extract_text : page -> outcome (option str);
  (* docx.Document(io.BytesIO(b)) *)
  Document : bytes -> outcome Docx;
  HAS_TEXTRACT : bool;
  (* textract.process(path of a temporary file holding b) *)
  textract_process : bytes -> outcome bytes;
  (* tiktoken.get_encoding("cl100k_base").encode / .decode *)
  enc_encode : str -> outcome (list Z);
  enc_decode : list Z -> str;
  (* client.embeddings.create(model=EMBED_MODEL, input=batch):
     [e.embedding for e in resp.data] *)
  embeddings_create : Trace -> list str -> outcome (list (list float32));
  (* client.chat.completions.create(...).choices[0].message.content *)
  chat_completions_create : Trace -> list Message -> outcome (option str);
  (* faiss.normalize_L2 on a 2-D array, row by row *)
  normalize_L2 : list (list float32) -> list (list float32);
  (* IndexFlatIP.search(v, k) on the stored rows: the pair (D, I) *)
  IndexFlatIP_search :
    list (list float32) -> list (list float32) -> Z ->
    outcome (list (list float32) * list (list Z))
}.

(** An embedding, and a 2-D float32 array as the list of its rows. *)
Abbreviation Vec := (list float32) (only parsing).
Abbreviation Matrix := (list (list float32)) (only parsing).

Section App.

Context {C : Collaborators}.

(** ** The chunker *)

Definition stride : nat := Z.to_nat (Z.max 1 (CHUNK_TOKENS - CHUNK_OVERLAP)).

(** The [while i < len(tokens)] loop of [chunk_text]. *)
Equations? chunk_loop (tokens : list Z) (i : nat) (chunks : list str)
  : list str by wf (length tokens - i) lt :=
  chunk_loop tokens i chunks with lt_dec i (length tokens) => {
    | left _ :=
        chunk_loop tokens (i + stride)
          (chunks ++ [enc_decode (slice tokens i (Z.to_nat CHUNK_TOKENS))]);
    | right _ := chunks }.
Proof. unfold stride. lia. Qed.

Definition chunk_text (text : str) : outcome (list str) :=
  match enc_encode text with
  | Raise e => Raise e
  | Ok tokens =>
      let chunks := chunk_loop tokens 0 [] in
      Ok (map strip (filter (fun c => truthy (strip c)) chunks))
  end.

(** ** Text extraction *)

Definition NL : str := [10%N].
Definition TAB : str := [9%N].

(** One iteration of the page loop: the page's text, and the empty string
    when the page has none or raises. *)
Definition page_text (p : page) : str :=
  match page_extract_text p with
  | Ok (Some t) => t
  | Ok None => []
  | Raise _ => []
  end.

Definition docx_parts (d : Docx) : list str :=
  filter truthy (paragraphs d)
  ++ flat_map (fun table => map (fun row => join TAB (filter truthy row)) table)
       (tables d).

Definition read_file_to_text (file_bytes : bytes) (name : str) : outcome str :=
  let n := lower name in
  if endswith n (lit ".txt") || endswith n (lit ".md") then
    Ok (utf8_decode_ignore file_bytes)
  else if endswith n (lit ".pdf") then
    match PdfReader_pages file_bytes with
    | Raise e => Raise e
    | Ok pages => Ok (join (NL ++ NL) (map page_text pages))
    end
  else if endswith n (lit ".docx") then
    match Document file_bytes with
    | Raise e => Raise e
    | Ok d => Ok (join NL (docx_parts d))
    end
  else if endswith n (lit ".doc") then
    if negb HAS_TEXTRACT then Ok []
    else
      match textract_process file_bytes with
      | Raise e => Raise e
      | Ok out => Ok (utf8_decode_ignore out)
      end
  else Ok [].

(** ** The globals and the handler monad *)

(** A [faiss.IndexFlatIP]: its dimension and the rows added to it. *)
Record Index := { dim : nat; xb : Matrix }.

Definition ntotal (idx : Index) : nat := length (xb idx).

(** The module globals, with the history of remote calls. *)
Record World := {
  docs : list (str * str);
  embs : option Matrix;
  index : option Index;
  trace : Trace
}.

Definition init_world : World :=
  {| docs := []; embs := None; index := None; trace := [] |}.

(** A handler runs on the globals and either returns or raises; whatever it
    assigned before raising stays assigned. *)
Definition M (A : Type) : Type := World -> outcome A * World.

Definition ret {A} (a : A) : M A := fun w => (Ok a, w).

Definition raise {A} (e : exn) : M A := fun w => (Raise e, w).

Definition bind {A B} (c : M A) (k : A -> M B) : M B :=
  fun w =>
    match c w with
    | (Ok a, w') => k a w'
    | (Raise e, w') => (Raise e, w')
    end.

Definition get : M World := fun w => (Ok w, w).

Definition lift {A} (o : outcome A) : M A := fun w => (o, w).

Definition set_docs (ds : list (str * str)) : M unit :=
  fun w => (Ok tt, {| docs := ds; embs := embs w; index := index w;
                      trace := trace w |}).

Definition set_embs (e : option Matrix) : M unit :=
  fun w => (Ok tt, {| docs := docs w; embs := e; index := index w;
                      trace := trace w |}).

Definition set_index (i : option Index) : M unit :=
  fun w => (Ok tt, {| docs := docs w; embs := embs w; index := i;
                      trace := trace w |}).

Definition record_call (c : Call) (w : World) : World :=
  {| docs := docs w; embs := embs w; index := index w;
     trace := trace w ++ [c] |}.

End App.

Declare Scope handler_scope.
Delimit Scope handler_scope with handler.
Notation "x <- c ;; k" := (bind c (fun x => k))
  (at level 61, c at next level, right associativity) : handler_scope.
Notation "c ;;; k" := (bind c (fun _ => k))
  (at level 61, right associativity) : handler_scope.
Local Open Scope handler_scope.

Section Handlers.

Context {C : Collaborators}.

(** [client.embeddings.create(model=EMBED_MODEL, input=batch)] *)
Definition call_embeddings (input : list str) : M (list Vec) :=
  fun w => (embeddings_create (trace w) input, record_call (EmbedCall input) w).

(** [client.chat.completions.create(model=GEN_MODEL, messages=..)] *)
Definition call_chat (messages : list Message) : M (option str) :=
  fun w => (chat_completions_create (trace w) messages,
            record_call (ChatCall messages) w).

(** ** Embedding the corpus *)

Definition B : nat := 1000.

Fixpoint embed_batches (texts : list str) (offsets : list nat)
  (vecs : list Vec) : M (list Vec) :=
  match offsets with
  | [] => ret vecs
  | i :: rest =>
      data <- call_embeddings (slice texts i B) ;;
      embed_batches texts rest (vecs ++ data)
  end.

Definition rectangular (vecs : list Vec) : bool :=
  match vecs with
  | [] => true
  | v :: rest => forallb (fun u => length u =? length v) rest
  end.

(** [np.array(vecs, dtype="float32")]: rows of unequal length are refused.
    The empty list gives the empty 1-D array, written [[]] here. *)
Definition np_array (vecs : list Vec) : outcome Matrix :=
  if rectangular vecs then Ok vecs else Raise ValueError.

Definition embed_texts (texts : list str) : M Matrix :=
  vecs <- embed_batches texts (range_step (length texts) B) [] ;;
  lift (np_array vecs).

(** ** The vector index *)

(** [build_faiss] normalizes its argument in place, so the caller's array
    changes too: the first component is the array after the call.  On the
    empty 1-D array [embeddings.shape[1]] does not exist. *)
Definition build_faiss (embeddings : Matrix) : outcome (Matrix * Index) :=
  match embeddings with
  | [] => Raise IndexError
  | row :: _ =>
      let normed := normalize_L2 embeddings in
      Ok (normed, {| dim := length row; xb := normed |})
  end.

Definition search (q_vec : Matrix) (top_k : Z)
  : M (Matrix * list (list Z)) :=
  w <- get ;;
  let v := normalize_L2 q_vec in
  match index w with
  | None => raise AttributeError
  | Some idx => lift (IndexFlatIP_search (xb idx) v top_k)
  end.

(** ** The prompt *)

Definition context_item (it : Z * (str * str)) : str :=
  let '(i, (src, txt)) := it in
  lit "[" ++ str_of_int (i + 1) ++ lit "] (" ++ src ++ lit ")" ++ NL ++ txt.

Definition system_prompt : str :=
  lit "You are a helpful RAG assistant. "
  ++ lit "Answer the user's question using ONLY the provided context if possible. "
  ++ lit "If the answer is not in the context, say you don't have enough information. "
  ++ lit "Cite sources as [#] where # is the context index.".

Definition make_prompt (question : str) (hits : list (str * str))
  : list Message :=
  let sources_text := join (NL ++ NL) (map context_item (enumerate hits)) in
  let user :=
    lit "Question:" ++ NL ++ question ++ NL ++ NL
    ++ lit "Context chunks:" ++ NL ++ sources_text ++ NL ++ NL
    ++ lit "Instructions:" ++ NL
    ++ lit "- If you use multiple chunks, cite like [1][3]." ++ NL
    ++ lit "- Be concise and precise." in
  [ {| role := lit "system"; content := system_prompt |};
    {| role := lit "user"; content := user |} ].

(** ** Requests and responses *)

Record AskPayload := { question : str; top_k : option Z }.

(** An uploaded file: [f.filename] and the bytes of [await f.read()]. *)
Record UploadFile := { filename : str; data : bytes }.

Record UploadResponse := {
  files : Z;
  chunks_added : Z;
  total_chunks : Z
}.

Record BuildResponse := { chunks : Z; message : option str }.

Record Source := { id : Z; file : str; preview : str }.

(** The two shapes [ask] returns: status "ok" with an answer and sources, and
    status "no_question" alone. *)
Inductive AskResponse : Type :=
| AskOk (answer : option str) (sources : list Source)
| AskNoQuestion.

(** ** POST /upload *)

Definition append_chunk (name : str) (ds : list (str * str)) (c : str)
  : list (str * str) := ds ++ [(name, c)].

Definition upload_file (f : UploadFile) (added : Z) : M Z :=
  text <- lift (read_file_to_text (data f) (filename f)) ;;
  if negb (truthy (strip text)) then ret added
  else
    cs <- lift (chunk_text text) ;;
    w <- get ;;
    set_docs (fold_left (append_chunk (filename f)) cs (docs w)) ;;;
    ret (added + Z.of_nat (length cs))%Z.

Fixpoint upload_loop (fs : list UploadFile) (added : Z) : M Z :=
  match fs with
  | [] => ret added
  | f :: rest => a <- upload_file f added ;; upload_loop rest a
  end.

Definition upload (fs : list UploadFile) : M UploadResponse :=
  added <- upload_loop fs 0%Z ;;
  w <- get ;;
  ret {| files := Z.of_nat (length fs);
         chunks_added := added;
         total_chunks := Z.of_nat (length (docs w)) |}.

(** ** POST /build *)

Definition no_documents_message : str :=
  lit "No documents to index. Please upload files and try again.".

Definition build : M BuildResponse :=
  w <- get ;;
  if negb (truthy (docs w)) then
    ret {| chunks := 0; message := Some no_documents_message |}
  else
    let texts := map snd (docs w) in
    e <- embed_texts texts ;;
    set_embs (Some e) ;;;
    r <- lift (build_faiss e) ;;
    set_embs (Some (fst r)) ;;;
    set_index (Some (snd r)) ;;;
    ret {| chunks := Z.of_nat (length texts); message := None |}.

(** ** POST /ask *)

Definition insufficient_answer : str :=
  lit "I don't have enough information to answer. "
  ++ lit "Please upload documents and click Build Index.".

Definition is_none {A} (o : option A) : bool :=
  match o with None => true | Some _ => false end.

(** [payload.top_k or TOP_K_DEFAULT]: [None] and [0] are both falsy. *)
Definition top_k_or_default (k : option Z) : Z :=
  match k with
  | None => TOP_K_DEFAULT
  | Some k => if (k =? 0)%Z then TOP_K_DEFAULT else k
  end.

(** [max(1, min(top_k, len(docs)))] *)
Definition clamp_top_k (k : Z) (ndocs : nat) : Z :=
  Z.max 1 (Z.min k (Z.of_nat ndocs)).

(** [x[0]] *)
Definition first_item {A} (l : list A) : outcome A :=
  match l with
  | [] => Raise IndexError
  | x :: _ => Ok x
  end.

(** [[(docs[j][0], docs[j][1]) for j in idxs]] *)
Fixpoint lookup_hits (ds : list (str * str)) (idxs : list Z)
  : outcome (list (str * str)) :=
  match idxs with
  | [] => Ok []
  | j :: rest =>
      match getitem ds j with
      | None => Raise IndexError
      | Some (s, t) =>
          match lookup_hits ds rest with
          | Raise e => Raise e
          | Ok hs => Ok ((s, t) :: hs)
          end
      end
  end.

Definition source_entry (it : Z * (str * str)) : Source :=
  let '(i, (s, t)) := it in
  {| id := (i + 1)%Z; file := s; preview := firstn 300 t |}.

Definition ask (payload : AskPayload) : M AskResponse :=
  w <- get ;;
  if is_none (index w) || negb (truthy (docs w)) then
    ret (AskOk (Some insufficient_answer) [])
  else if negb (truthy (strip (question payload))) then
    ret AskNoQuestion
  else
    resp <- call_embeddings [question payload] ;;
    q_emb <- lift (first_item resp) ;;
    let q_emb := [q_emb] in
    let top_k := top_k_or_default (top_k payload) in
    let top_k := clamp_top_k top_k (length (docs w)) in
    DI <- search q_emb top_k ;;
    idxs <- lift (first_item (snd DI)) ;;
    hits <- lift (lookup_hits (docs w) idxs) ;;
    let messages := make_prompt (question payload) hits in
    answer <- call_chat messages ;;
    let sources := map source_entry (enumerate hits) in
    ret (AskOk answer sources).

(** ** POST /reset *)

Definition reset : M unit :=
  set_docs [] ;;;
  set_embs None ;;;
  set_index None.

End Handlers.

(** * Definitions used to state the properties *)

Section Statements.

Context {C : Collaborators}.

(** The reference definition, in the words of the specification: windows of
    400 tokens at offsets 0, s, 2s, ... below the token count, s = 340;
    each decoded, trimmed, and dropped when empty. *)
Definition ref_offsets (n : nat) : list nat :=
  filter (fun o => o <? n) (map (fun k => k * 340) (seq 0 n)).

Definition chunk_ref (text : str) : outcome (list str) :=
  match enc_encode text with
  | Raise e => Raise e
  | Ok tokens =>
      let windows :=
        map (fun o => firstn 400 (skipn o tokens))
          (ref_offsets (length tokens)) in
      Ok (filter truthy (map strip (map enc_decode windows)))
  end.

(** The offsets the loop visits from [i] on, with at most [fuel] rounds. *)
Fixpoint offsets_from (fuel i n : nat) : list nat :=
  match fuel with
  | 0 => []
  | S fuel' => if i <? n then i :: offsets_from fuel' (i + stride) n else []
  end.

Definition window (tokens : list Z) (o : nat) : list Z :=
  slice tokens o (Z.to_nat CHUNK_TOKENS).

(** Empty or made of whitespace only. *)
Definition blank (s : str) : bool := forallb isspace s.

(** The three globals agree (the call history may differ). *)
Definition same_globals (w w' : World) : Prop :=
  docs w' = docs w /\ embs w' = embs w /\ index w' = index w.

(** ** Reachable states *)

Inductive Op : Type :=
| OpUpload (fs : list UploadFile)
| OpBuild
| OpAsk (p : AskPayload)
| OpReset.

(** The globals after a request, whether the handler returned or raised. *)
Definition exec (o : Op) (w : World) : World :=
  match o with
  | OpUpload fs => snd (upload fs w)
  | OpBuild => snd (build w)
  | OpAsk p => snd (ask p w)
  | OpReset => snd (reset w)
  end.

Inductive reachable : World -> Prop :=
| reach_init : reachable init_world
| reach_step w o : reachable w -> reachable (exec o w).

(** An index is present only over a non-empty store. *)
Definition index_has_docs (w : World) : Prop :=
  index w <> None -> docs w <> [].

Definition insufficient_response : AskResponse :=
  AskOk (Some insufficient_answer) [].

(** ** Definitions for the further properties *)

(** The number of windows over n tokens. *)
Definition window_count (n : nat) : nat := (n + 339) / 340.

(** The inputs of the successive calls: [texts[i:i+B]] for [i] in
    [range(0, len(texts), B)]. *)
Definition batches (texts : list str) : list (list str) :=
  map (fun i => slice texts i B) (range_step (length texts) B).

(** The index never describes more chunks than the store holds. *)
Definition index_within_docs (w : World) : Prop :=
  forall idx, index w = Some idx -> ntotal idx <= length (docs w).

(** The records one file contributes: none when its text is blank. *)
Definition file_chunks (f : UploadFile) : outcome (list (str * str)) :=
  match read_file_to_text (data f) (filename f) with
  | Raise e => Raise e
  | Ok text =>
      if negb (truthy (strip text)) then Ok []
      else match chunk_text text with
           | Raise e => Raise e
           | Ok cs => Ok (map (fun c => (filename f, c)) cs)
           end
  end.

(** The records a list of files contributes, up to the first file that
    fails. *)
Fixpoint ingested (fs : list UploadFile) : list (str * str) :=
  match fs with
  | [] => []
  | f :: rest =>
      match file_chunks f with
      | Ok cs => cs ++ ingested rest
      | Raise _ => []
      end
  end.

End Statements.

(** ** A concrete set of collaborators

    A small deterministic stand-in for the outside world, used to run the
    handlers on concrete requests: one token per code point, two-component
    embeddings, an embedding endpoint that starts failing once [budget]
    remote calls have been made, and a flat search that returns the first
    [k] stored positions and -1 beyond them. *)

Module Toy.

Definition utf8 (b : bytes) : str := map Byte.to_N b.

Definition pages (b : bytes) : outcome (list (outcome (option str))) :=
  match b with
  | [] => Raise (External "EmptyFileError")
  | _ => Ok [Ok (Some (utf8 b)); Raise (External "page"); Ok None]
  end.

Definition encode (t : str) : outcome (list Z) := Ok (map Z.of_N t).
Definition decode (toks : list Z) : str := map Z.to_N toks.

Definition embed (budget : nat) (tr : Trace) (input : list str)
  : outcome (list (list Z)) :=
  if length tr <? budget
  then Ok (map (fun t => [Z.of_nat (length t); 1%Z]) input)
  else Raise (External "RateLimitError").

Definition chat (tr : Trace) (messages : list Message)
  : outcome (option str) := Ok (Some (lit "A cat.")).

Definition flat_search (stored v : list (list Z)) (k : Z)
  : outcome (list (list Z) * list (list Z)) :=
  let labels :=
    map (fun i => if i <? length stored then Z.of_nat i else (-1)%Z)
      (seq 0 (Z.to_nat k)) in
  Ok ([map (fun _ => 0%Z) labels], [labels]).

Definition world (budget : nat) : Collaborators :=
  {| float32 := Z;
     page := outcome (option str);
     utf8_decode_ignore := utf8;
     PdfReader_pages := pages;
     page_extract_text := fun p => p;
     Document := fun _ => Raise (External "BadZipFile");
     HAS_TEXTRACT := false;
     textract_process := fun b => Ok b;
     enc_encode := encode;
     enc_decode := decode;
     embeddings_create := embed budget;
     chat_completions_create := chat;
     normalize_L2 := fun m => m;
     IndexFlatIP_search := flat_search |}.

Definition cat_file : UploadFile :=
  {| filename := lit "notes.txt";
     data := list_byte_of_string "A cat sat. A dog ran." |}.

Definition dog_file : UploadFile :=
  {| filename := lit "more.md";
     data := list_byte_of_string "Dogs run." |}.

(** One document uploaded and indexed. *)
Definition indexed (budget : nat) : World :=
  exec (C := world budget) OpBuild
    (exec (C := world budget) (OpUpload [cat_file]) init_world).

(** A second document uploaded after the build: the index is stale. *)
Definition stale (budget : nat) : World :=
  exec (C := world budget) (OpUpload [dog_file]) (indexed budget).

(** The index built over the first document alone. *)
Definition cat_index (budget : nat) : @Index (world budget) :=
  @Build_Index (world budget) 2 [[21%Z; 1%Z]].

(** The store after the first upload, before any build. *)
Definition uploaded (budget : nat) : World :=
  exec (C := world budget) (OpUpload [cat_file]) init_world.

(** An empty upload named as a PDF: the reader refuses it. *)
Definition empty_pdf : UploadFile :=
  {| filename := lit "bad.pdf"; data := [] |}.

Definition blank_txt : UploadFile :=
  {| filename := lit "empty.txt"; data := list_byte_of_string "  " |}.

Definition picture : UploadFile :=
  {| filename := lit "pic.png"; data := list_byte_of_string "xyz" |}.

(** The embedding the endpoint gives a text. *)
Definition vector_of (t : str) : list Z := [Z.of_nat (length t); 1%Z].

(** A document with an empty paragraph and a table with an empty row. *)
Definition memo (b : bytes) : Docx :=
  {| paragraphs := [utf8 b; []];
     tables := [[[utf8 b; []; utf8 b]; [[]]]] |}.

(** The same collaborators with a .docx reader that opens every file. *)
Definition office : Collaborators :=
  {| float32 := Z;
     page := outcome (option str);
     utf8_decode_ignore := utf8;
     PdfReader_pages := pages;
     page_extract_text := fun p => p;
     Document := fun b => Ok (memo b);
     HAS_TEXTRACT := true;
     textract_process := fun b => Ok b;
     enc_encode := encode;
     enc_decode := decode;
     embeddings_create := embed 9;
     chat_completions_create := chat;
     normalize_L2 := fun m => m;
     IndexFlatIP_search := flat_search |}.

(** A byte-level tokenizer: one token per UTF-8 byte of the text, decoded
    with a replacement character (65533) for every byte that does not start
    a well-formed sequence, as [errors="replace"] does. *)
Definition utf8_bytes (c : char) : list Z :=
  let z := Z.of_N c in
  (if z <? 128 then [z]
   else if z <? 2048 then [192 + z / 64; 128 + z mod 64]
   else if z <? 65536 then
     [224 + z / 4096; 128 + (z / 64) mod 64; 128 + z mod 64]
   else [240 + z / 262144; 128 + (z / 4096) mod 64;
         128 + (z / 64) mod 64; 128 + z mod 64])%Z.

Definition continuation (b : Z) : bool := ((128 <=? b) && (b <=? 191))%Z.

Fixpoint utf8_replace (bs : list Z) : str :=
  match bs with
  | [] => []
  | b :: rest =>
      if (b <? 128)%Z then Z.to_N b :: utf8_replace rest
      else if ((194 <=? b) && (b <=? 223))%Z then
        match rest with
        | c1 :: rest1 =>
            if continuation c1
            then Z.to_N ((b - 192) * 64 + (c1 - 128)) :: utf8_replace rest1
            else 65533%N :: utf8_replace rest
        | [] => [65533%N]
        end
      else if ((224 <=? b) && (b <=? 239))%Z then
        match rest with
        | c1 :: c2 :: rest2 =>
            if continuation c1 && continuation c2
            then Z.to_N ((b - 224) * 4096 + (c1 - 128) * 64 + (c2 - 128))
                 :: utf8_replace rest2
            else 65533%N :: utf8_replace rest
        | _ => 65533%N :: utf8_replace rest
        end
      else if ((240 <=? b) && (b <=? 244))%Z then
        match rest with
        | c1 :: c2 :: c3 :: rest3 =>
            if continuation c1 && continuation c2 && continuation c3
            then Z.to_N ((b - 240) * 262144 + (c1 - 128) * 4096
                         + (c2 - 128) * 64 + (c3 - 128))
                 :: utf8_replace rest3
            else 65533%N :: utf8_replace rest
        | _ => 65533%N :: utf8_replace rest
        end
      else 65533%N :: utf8_replace rest
  end.

Definition bytewise : Collaborators :=
  {| float32 := Z;
     page := outcome (option str);
     utf8_decode_ignore := utf8;
     PdfReader_pages := pages;
     page_extract_text := fun p => p;
     Document := fun _ => Raise (External "BadZipFile");
     HAS_TEXTRACT := false;
     textract_process := fun b => Ok b;
     enc_encode := fun t => Ok (flat_map utf8_bytes t);
     enc_decode := utf8_replace;
     embeddings_create := embed 9;
     chat_completions_create := chat;
     normalize_L2 := fun m => m;
     IndexFlatIP_search := flat_search |}.

(** 114 times OGHAM SPACE MARK (U+1680), a whitespace character of three
    UTF-8 bytes. *)
Definition ogham_spaces : str := repeat 5760%N 114.

End Toy.

Definition what_sat (k : option Z) : AskPayload :=
  {| question := lit "What sat?"; top_k := k |}.

Definition blank_question (k : option Z) : AskPayload :=
  {| question := lit "  "; top_k := k |}.

(** * Properties *)

Lemma stride_pos : 0 < stride.
Proof. unfold stride. lia. Qed.

(** ** The chunker against its reference definition *)

Section Chunker.

Context {C : Collaborators}.

Lemma chunk_loop_step tokens i chunks :
  chunk_loop tokens i chunks =
  if i <? length tokens
  then chunk_loop tokens (i + stride) (chunks ++ [enc_decode (window tokens i)])
  else chunks.
Proof.
  rewrite chunk_loop_equation_1.
  destruct (lt_dec i (length tokens)) as [Hlt | Hge].
  - rewrite (proj2 (Nat.ltb_lt _ _) Hlt). reflexivity.
  - rewrite (proj2 (Nat.ltb_nlt _ _) Hge). reflexivity.
Qed.

Lemma chunk_loop_offsets tokens fuel :
  forall i chunks,
    length tokens - i <= fuel ->
    chunk_loop tokens i chunks =
    chunks ++ map (fun o => enc_decode (window tokens o))
                (offsets_from fuel i (length tokens)).
Proof.
  induction fuel as [| fuel IH]; intros i chunks Hfuel.
  - rewrite chunk_loop_step.
    replace (i <? length tokens) with false
      by (symmetry; apply Nat.ltb_ge; lia).
    cbn. now rewrite app_nil_r.
  - rewrite chunk_loop_step. cbn [offsets_from].
    destruct (i <? length tokens) eqn:Hi.
    + rewrite IH by (pose proof stride_pos; lia).
      cbn. now rewrite <- app_assoc.
    + cbn. now rewrite app_nil_r.
Qed.

Lemma filter_none {A} (f : A -> bool) (l : list A) :
  (forall x, In x l -> f x = false) -> filter f l = [].
Proof.
  induction l as [| x l IH]; intros H; cbn; [reflexivity |].
  rewrite (H x (or_introl eq_refl)). apply IH. intros y Hy. apply H. now right.
Qed.

Lemma offsets_from_multiples n fuel :
  forall k,
    offsets_from fuel (k * stride) n =
    filter (fun o => o <? n) (map (fun j => j * stride) (seq k fuel)).
Proof.
  induction fuel as [| fuel IH]; intros k; [reflexivity |].
  cbn [offsets_from seq map filter].
  destruct (k * stride <? n) eqn:Hk.
  - f_equal. rewrite <- IH. f_equal. lia.
  - symmetry. apply filter_none. intros o Ho.
    apply in_map_iff in Ho as [j [<- Hj]]. apply in_seq in Hj.
    apply Nat.ltb_ge. apply Nat.ltb_ge in Hk.
    assert (k * stride <= j * stride) by (apply Nat.mul_le_mono_r; lia).
    lia.
Qed.

Lemma stride_value : stride = 340.
Proof. reflexivity. Qed.

Lemma chunk_tokens_value : Z.to_nat CHUNK_TOKENS = 400.
Proof. reflexivity. Qed.

Lemma offsets_from_ref n : offsets_from n 0 n = ref_offsets n.
Proof.
  change 0 with (0 * stride) at 1. rewrite offsets_from_multiples.
  unfold ref_offsets. now rewrite stride_value.
Qed.

Lemma filter_map_swap {A B} (f : A -> B) (p : B -> bool) (l : list A) :
  map f (filter (fun x => p (f x)) l) = filter p (map f l).
Proof.
  induction l as [| x l IH]; cbn; [reflexivity |].
  destruct (p (f x)); cbn; now rewrite IH.
Qed.

Lemma chunk_text_eq_ref text : chunk_text text = chunk_ref text.
Proof.
  unfold chunk_text, chunk_ref.
  destruct (enc_encode text) as [tokens | e]; [| reflexivity].
  f_equal.
  rewrite (chunk_loop_offsets tokens (fuel := length tokens)) by lia.
  cbn [app]. rewrite offsets_from_ref.
  rewrite (filter_map_swap strip truthy).
  rewrite !map_map. unfold window, slice. now rewrite chunk_tokens_value.
Qed.

End Chunker.

(** ** Blank strings *)

Lemma lstrip_nil_iff s : lstrip s = [] <-> blank s = true.
Proof.
  unfold blank. induction s as [| c s IH]; cbn; [tauto |].
  destruct (isspace c); cbn; [exact IH |].
  split; discriminate.
Qed.

Lemma blank_rev s : blank (rev s) = blank s.
Proof.
  unfold blank. induction s as [| c s IH]; cbn; [reflexivity |].
  rewrite forallb_app, IH. cbn. rewrite andb_true_r. apply andb_comm.
Qed.

Lemma lstrip_suffix s : exists pre, blank pre = true /\ s = pre ++ lstrip s.
Proof.
  induction s as [| c s [pre [Hpre Hs]]]; cbn.
  - exists []. now split.
  - destruct (isspace c) eqn:Hc.
    + exists (c :: pre). split; [unfold blank in *; cbn; now rewrite Hc |].
      cbn. now rewrite <- Hs.
    + exists []. now split.
Qed.

Lemma strip_nil_iff s : strip s = [] <-> blank s = true.
Proof.
  unfold strip, rstrip. split.
  - intros H.
    assert (Hr : lstrip (rev (lstrip s)) = []).
    { apply (f_equal (@rev char)) in H. now rewrite rev_involutive in H. }
    apply lstrip_nil_iff in Hr. rewrite blank_rev in Hr.
    destruct (lstrip_suffix s) as [pre [Hpre Hs]].
    rewrite Hs. unfold blank in *. rewrite forallb_app. now rewrite Hpre, Hr.
  - intros H. apply lstrip_nil_iff in H. now rewrite H.
Qed.

Lemma truthy_strip_blank s : truthy (strip s) = negb (blank s).
Proof.
  destruct (blank s) eqn:Hb.
  - apply strip_nil_iff in Hb. now rewrite Hb.
  - destruct (strip s) eqn:Hs; [| reflexivity].
    apply strip_nil_iff in Hs. congruence.
Qed.

Lemma blank_app a b : blank (a ++ b) = blank a && blank b.
Proof. apply forallb_app. Qed.

(** ** Blank input to the chunker *)

Section ChunkerBlank.

Context {C : Collaborators}.

(** The tokenizer as a lossless code: encoding then decoding is the
    identity, and decoding distributes over concatenation of token lists. *)
Hypothesis encode_blank_ok :
  forall t, blank t = true -> raises (enc_encode t) = false.
Hypothesis decode_encode :
  forall t toks, enc_encode t = Ok toks -> enc_decode toks = t.
Hypothesis decode_app :
  forall a b, enc_decode (a ++ b) = enc_decode a ++ enc_decode b.

Lemma window_decode_blank text toks o k :
  enc_encode text = Ok toks -> blank text = true ->
  blank (enc_decode (slice toks o k)) = true.
Proof.
  intros Henc Hb. unfold slice.
  assert (Hsplit : toks = firstn o toks
                          ++ firstn k (skipn o toks)
                          ++ skipn k (skipn o toks)).
  { now rewrite firstn_skipn, firstn_skipn. }
  apply decode_encode in Henc. rewrite Hsplit, !decode_app in Henc.
  rewrite <- Henc, !blank_app in Hb.
  apply andb_prop in Hb as [_ Hb]. now apply andb_prop in Hb as [Hb _].
Qed.

Lemma chunk_text_blank text : blank text = true -> chunk_text text = Ok [].
Proof.
  intros Hb. rewrite chunk_text_eq_ref. unfold chunk_ref.
  pose proof (encode_blank_ok text Hb) as Hok.
  destruct (enc_encode text) as [toks | e] eqn:Henc; [| discriminate].
  f_equal. apply filter_none. intros c Hc.
  apply in_map_iff in Hc as [d [<- Hd]].
  apply in_map_iff in Hd as [win [<- Hw]].
  apply in_map_iff in Hw as [o [<- _]].
  rewrite truthy_strip_blank.
  change (firstn 400 (skipn o toks)) with (slice toks o 400).
  now rewrite (window_decode_blank _ o 400 Henc Hb).
Qed.

End ChunkerBlank.

Section ChunkerShort.

Context {C : Collaborators}.

(** With at most 340 tokens the loop runs at most once, over all the
    tokens. *)
Lemma chunk_loop_short tokens :
  length tokens <= 340 ->
  chunk_loop tokens 0 []
  = match tokens with [] => [] | _ :: _ => [enc_decode tokens] end.
Proof.
  intros Hlen. rewrite chunk_loop_step.
  destruct tokens as [| t ts]; [reflexivity |].
  change (0 <? length (t :: ts)) with true. cbv iota.
  rewrite chunk_loop_step.
  replace (0 + stride <? length (t :: ts)) with false
    by (symmetry; apply Nat.ltb_ge; rewrite stride_value; cbn [plus]; lia).
  cbn [app]. unfold window, slice. rewrite chunk_tokens_value. cbn [skipn].
  now rewrite firstn_all2 by lia.
Qed.

Lemma chunk_text_blank_short text tokens :
  enc_encode text = Ok tokens -> enc_decode tokens = text ->
  length tokens <= 340 -> blank text = true ->
  chunk_text text = Ok [].
Proof.
  intros Henc Hdec Hlen Hb. unfold chunk_text. rewrite Henc. f_equal.
  rewrite (chunk_loop_short _ Hlen). destruct tokens as [| t ts];
    [reflexivity |].
  cbn [filter]. now rewrite Hdec, truthy_strip_blank, Hb.
Qed.

End ChunkerShort.

(** C3, as the code has it: [chunk_text] computes the reference definition
    of the chunker for every text (both raise when the tokenizer refuses the
    text).  An empty or whitespace-only text yields no chunk when its tokens
    decode back to it and there are at most 340 of them (one window), and,
    whatever its length, when the tokenizer accepts blank text and is a
    lossless code whose decoding distributes over concatenation, so that
    every window decodes to a piece of the text. *)
Theorem chunk_text_reference `{C : Collaborators} :
  (forall text, chunk_text text = chunk_ref text)
  /\ (forall text tokens,
        enc_encode text = Ok tokens -> enc_decode tokens = text ->
        length tokens <= 340 -> blank text = true ->
        chunk_text text = Ok [])
  /\ ((forall t, blank t = true -> raises (enc_encode t) = false) ->
      (forall t toks, enc_encode t = Ok toks -> enc_decode toks = t) ->
      (forall a b, enc_decode (a ++ b) = enc_decode a ++ enc_decode b) ->
      forall text, blank text = true -> chunk_text text = Ok []).
Proof.
  split; [exact chunk_text_eq_ref |]. split.
  - intros text tokens. apply chunk_text_blank_short.
  - intros Hok Hround Hcat text Hb. now apply chunk_text_blank.
Qed.

(** ** What the handlers do to the globals *)

Section Frames.

Context {C : Collaborators}.

Lemma same_globals_refl w : same_globals w w.
Proof. now repeat split. Qed.

Lemma same_globals_trans w1 w2 w3 :
  same_globals w1 w2 -> same_globals w2 w3 -> same_globals w1 w3.
Proof.
  unfold same_globals. intros (? & ? & ?) (? & ? & ?).
  repeat split; congruence.
Qed.

Lemma record_call_globals c w : same_globals w (record_call c w).
Proof. now repeat split. Qed.

Ltac unfold_handler :=
  unfold bind, ret, raise, get, lift, set_docs, set_embs, set_index,
    call_embeddings, call_chat in *.

Ltac frame :=
  cbn [snd fst docs embs index trace record_call]; repeat split; reflexivity.

Lemma embed_batches_globals texts offsets :
  forall vecs w, same_globals w (snd (embed_batches texts offsets vecs w)).
Proof.
  induction offsets as [| i rest IH]; intros vecs w; cbn [embed_batches].
  - apply same_globals_refl.
  - unfold_handler.
    destruct (embeddings_create (trace w) (slice texts i B)) as [data | e].
    + eapply same_globals_trans; [apply record_call_globals | apply IH].
    + apply record_call_globals.
Qed.

(** The batch loop raises only when one of its calls to the embedding
    endpoint raised. *)
Lemma embed_batches_raise texts offsets :
  forall vecs w e,
    fst (embed_batches texts offsets vecs w) = Raise e ->
    exists i tr, In i offsets /\
                 embeddings_create tr (slice texts i B) = Raise e.
Proof.
  induction offsets as [| i rest IH]; intros vecs w e; cbn [embed_batches].
  - discriminate.
  - unfold_handler.
    destruct (embeddings_create (trace w) (slice texts i B)) as [data | e']
      eqn:Hcall.
    + intros H. apply IH in H as (j & tr & Hj & Hr).
      exists j, tr. split; [now right | exact Hr].
    + cbn. intros [= <-]. exists i, (trace w). split; [now left | exact Hcall].
Qed.

Lemma embed_texts_globals texts w :
  same_globals w (snd (embed_texts texts w)).
Proof.
  unfold embed_texts. unfold_handler.
  pose proof (embed_batches_globals texts
                (range_step (length texts) B) [] w) as H.
  destruct (embed_batches texts (range_step (length texts) B) [] w)
    as [[vecs | e] w1]; exact H.
Qed.

Lemma fold_append_chunk name cs :
  forall ds,
    fold_left (append_chunk name) cs ds = ds ++ map (fun c => (name, c)) cs.
Proof.
  induction cs as [| c cs IH]; intros ds; cbn.
  - now rewrite app_nil_r.
  - rewrite IH. unfold append_chunk. now rewrite <- app_assoc.
Qed.

(** [upload] only appends to [docs]; it leaves [embs], [index] and the call
    history alone, whether it returns or raises. *)
Lemma upload_file_appends f added w :
  let w' := snd (upload_file f added w) in
  (exists extra, docs w' = docs w ++ extra)
  /\ embs w' = embs w /\ index w' = index w /\ trace w' = trace w.
Proof.
  unfold upload_file. unfold_handler.
  destruct (read_file_to_text (data f) (filename f)) as [text | e]; cbn.
  2: { repeat split; trivial. exists []. now rewrite app_nil_r. }
  destruct (negb (truthy (strip text))); cbn.
  { repeat split; trivial. exists []. now rewrite app_nil_r. }
  destruct (chunk_text text) as [cs | e]; cbn.
  2: { repeat split; trivial. exists []. now rewrite app_nil_r. }
  repeat split; trivial. rewrite fold_append_chunk. eauto.
Qed.

Lemma upload_loop_appends fs :
  forall added w,
    let w' := snd (upload_loop fs added w) in
    (exists extra, docs w' = docs w ++ extra)
    /\ embs w' = embs w /\ index w' = index w /\ trace w' = trace w.
Proof.
  induction fs as [| f rest IH]; intros added w; cbn.
  - repeat split; trivial. exists []. now rewrite app_nil_r.
  - unfold bind.
    pose proof (upload_file_appends f added w) as Hf. cbv zeta in Hf.
    destruct (upload_file f added w) as [[a | e] w1]; cbn [snd] in *.
    + destruct Hf as ([x1 H1] & He & Hi & Ht).
      destruct (IH a w1) as ([x2 H2] & He2 & Hi2 & Ht2).
      cbv zeta.
      repeat split; try congruence.
      exists (x1 ++ x2). rewrite H2, H1. now rewrite app_assoc.
    + exact Hf.
Qed.

Lemma upload_appends fs w :
  let w' := snd (upload fs w) in
  (exists extra, docs w' = docs w ++ extra)
  /\ embs w' = embs w /\ index w' = index w /\ trace w' = trace w.
Proof.
  unfold upload. unfold_handler.
  pose proof (upload_loop_appends fs 0%Z w) as H. cbv zeta in H.
  destruct (upload_loop fs 0%Z w) as [[a | e] w1]; exact H.
Qed.

Lemma search_world q k w : snd (search q k w) = w.
Proof.
  unfold search. unfold_handler. now destruct (index w).
Qed.

(** [ask] assigns none of the globals. *)
Lemma ask_globals p w : same_globals w (snd (ask p w)).
Proof.
  unfold ask, same_globals. unfold_handler.
  destruct (is_none (index w) || negb (truthy (docs w))); [frame |].
  destruct (negb (truthy (strip (question p)))); [frame |].
  destruct (embeddings_create (trace w) [question p]) as [resp | e];
    [| frame].
  destruct (first_item _) as [q | e]; [| frame].
  match goal with
  | |- context [search ?q ?k ?w1] =>
      pose proof (search_world q k w1) as Hs;
      destruct (search q k w1) as [[DI | e] w2]; cbn [snd] in Hs; subst w2
  end; [| frame].
  destruct (first_item (snd DI)) as [idxs | e]; [| frame].
  destruct (lookup_hits (docs w) idxs) as [hits | e]; [| frame].
  destruct (chat_completions_create _ _) as [ans | e]; frame.
Qed.

(** [build] never assigns [docs], and assigns [index] only on the path past
    the emptiness test. *)
Lemma build_docs_index w :
  let w' := snd (build w) in
  docs w' = docs w /\ (index w' = index w \/ docs w <> []).
Proof.
  unfold build. unfold_handler.
  destruct (docs w) as [| dc rest] eqn:Hd; cbn [truthy negb].
  - cbn. rewrite Hd. now split; [| left].
  - split; [| right; discriminate].
    pose proof (embed_texts_globals (map snd (dc :: rest)) w) as (H1 & _).
    destruct (embed_texts (map snd (dc :: rest)) w) as [[e | x] w1];
      cbn in *; [| congruence].
    destruct (build_faiss e) as [r | x]; cbn; congruence.
Qed.

Lemma reset_clears w :
  let w' := snd (reset w) in
  docs w' = [] /\ embs w' = None /\ index w' = None /\ trace w' = trace w.
Proof. now repeat split. Qed.

End Frames.

(** ** The invariant of the globals *)

Section Lifecycle.

Context {C : Collaborators}.

Lemma exec_preserves o w : index_has_docs w -> index_has_docs (exec o w).
Proof.
  unfold index_has_docs. intros Hinv. destruct o as [fs | | p |]; cbn [exec].
  - destruct (upload_appends fs w) as ([extra Hd] & _ & Hi & _).
    rewrite Hi, Hd. intros H Hnil. apply app_eq_nil in Hnil as [Hnil _].
    now apply Hinv.
  - destruct (build_docs_index w) as [Hd [Hi | Hne]]; rewrite Hd.
    + now rewrite Hi.
    + now intros _.
  - destruct (ask_globals p w) as (Hd & _ & Hi). now rewrite Hd, Hi.
  - destruct (reset_clears w) as (_ & _ & Hi & _). now rewrite Hi.
Qed.

Lemma reachable_index_has_docs w : reachable w -> index_has_docs w.
Proof.
  induction 1 as [| w o _ IH].
  - intros H. now elim H.
  - now apply exec_preserves.
Qed.

Lemma ask_insufficient p w :
  index w = None \/ docs w = [] ->
  ask p w = (Ok insufficient_response, w).
Proof.
  intros H. unfold ask, bind, get, ret.
  destruct H as [H | H]; rewrite H; cbn; [reflexivity |].
  now rewrite orb_true_r.
Qed.

Lemma ask_no_question p w :
  index w <> None -> docs w <> [] -> blank (question p) = true ->
  ask p w = (Ok AskNoQuestion, w).
Proof.
  intros Hi Hd Hb. unfold ask, bind, get, ret.
  destruct (index w); [| congruence].
  destruct (docs w); [congruence |]. cbn [is_none truthy negb orb].
  now rewrite truthy_strip_blank, Hb.
Qed.

End Lifecycle.

(** C10: in every reachable state an index is present only over a non-empty
    Document Store, and each of the four operations preserves that: [upload]
    only appends to [docs] and leaves [index] alone, [build] leaves [docs]
    alone and assigns [index] only past its emptiness test, [ask] assigns
    neither, and [reset] clears both. *)
Theorem index_present_implies_docs `{C : Collaborators} :
  (forall w, reachable w -> index w <> None -> docs w <> [])
  /\ (forall o w, index_has_docs w -> index_has_docs (exec o w))
  /\ (forall fs w, (exists extra, docs (exec (OpUpload fs) w) = docs w ++ extra)
                   /\ index (exec (OpUpload fs) w) = index w)
  /\ (forall w, docs (exec OpBuild w) = docs w
                /\ (index (exec OpBuild w) = index w \/ docs w <> []))
  /\ (forall p w, docs (exec (OpAsk p) w) = docs w
                  /\ index (exec (OpAsk p) w) = index w)
  /\ (forall w, docs (exec OpReset w) = [] /\ index (exec OpReset w) = None).
Proof.
  repeat apply conj.
  - exact reachable_index_has_docs.
  - exact exec_preserves.
  - intros fs w. destruct (upload_appends fs w) as (Hd & _ & Hi & _).
    now split.
  - exact build_docs_index.
  - intros p w. destruct (ask_globals p w) as (Hd & _ & Hi). now split.
  - intros w. now split.
Qed.

(** C2: when there is no index or the Document Store is empty, [ask] returns
    the fixed insufficient-information answer with no sources and leaves the
    call history as it was, so neither endpoint is called; the state right
    after [reset] is such a state, whatever came before. *)
Theorem ask_without_index_or_docs `{C : Collaborators} :
  (forall p w, index w = None \/ docs w = [] ->
               ask p w = (Ok (AskOk (Some insufficient_answer) []), w))
  /\ (forall p w, ask p (snd (reset w))
                  = (Ok (AskOk (Some insufficient_answer) []), snd (reset w))).
Proof.
  split.
  - intros p w H. now apply ask_insufficient.
  - intros p w. apply ask_insufficient. now left.
Qed.

(** C8: in a reachable state whose Document Store is empty, [build] returns
    the zero-chunk result without touching the state or calling the
    embedding endpoint, there is no index afterwards, and an [ask] that
    follows returns the insufficient-information response. *)
Theorem build_empty_store `{C : Collaborators} (w : World) :
  reachable w -> docs w = [] ->
  build w = (Ok {| chunks := 0; message := Some no_documents_message |}, w)
  /\ index (snd (build w)) = None
  /\ forall p, ask p (snd (build w)) = (Ok insufficient_response, snd (build w)).
Proof.
  intros Hr Hd.
  assert (Hb : build w
               = (Ok {| chunks := 0; message := Some no_documents_message |}, w)).
  { unfold build, bind, get, ret. now rewrite Hd. }
  rewrite Hb. cbn [snd]. repeat split.
  - destruct (index w) eqn:Hi; [| reflexivity].
    exfalso. apply (reachable_index_has_docs Hr); [congruence | exact Hd].
  - intros p. apply ask_insufficient. now right.
Qed.

(** C9: in a reachable state that holds an index, an [ask] whose question is
    empty or whitespace-only returns the "no_question" status and leaves the
    call history as it was: neither endpoint is called. *)
Theorem ask_blank_question `{C : Collaborators} (w : World) (p : AskPayload) :
  reachable w -> index w <> None -> blank (question p) = true ->
  ask p w = (Ok AskNoQuestion, w).
Proof.
  intros Hr Hi Hb. apply ask_no_question; trivial.
  now apply (reachable_index_has_docs Hr).
Qed.

(** C5: when a call of the batch loop to the embedding endpoint raises,
    [build] raises the same exception and [docs], [embs] and [index] are what
    they were before the build. *)
Theorem build_embedding_failure `{C : Collaborators} (w : World) (e : exn) :
  let texts := map snd (docs w) in
  fst (embed_batches texts (range_step (length texts) B) [] w) = Raise e ->
  fst (build w) = Raise e
  /\ docs (snd (build w)) = docs w
  /\ embs (snd (build w)) = embs w
  /\ index (snd (build w)) = index w.
Proof.
  intros texts Hfail. subst texts.
  unfold build, embed_texts, bind, get.
  destruct (docs w) as [| dc rest] eqn:Hd.
  - exfalso. cbn in Hfail. discriminate.
  - cbn [truthy negb].
    pose proof (embed_batches_globals (map snd (dc :: rest))
                  (range_step (length (map snd (dc :: rest))) B) [] w) as Hg.
    destruct (embed_batches (map snd (dc :: rest))
                (range_step (length (map snd (dc :: rest))) B) [] w)
      as [[vecs | x] w1].
    + discriminate.
    + cbn in Hfail. destruct Hg as (H1 & H2 & H3). cbn [fst snd] in *.
      repeat split; congruence.
Qed.

(** ** The answering path of [ask] *)

Section Answering.

Context {C : Collaborators}.

Lemma nth_error_enumerate_from {A} (l : list A) :
  forall k i,
    nth_error (enumerate_from k l) i
    = option_map (fun x => ((k + Z.of_nat i)%Z, x)) (nth_error l i).
Proof.
  induction l as [| x l IH]; intros k [| i]; cbn [enumerate_from nth_error option_map];
    try reflexivity.
  - now rewrite Z.add_0_r.
  - rewrite IH. destruct (nth_error l i); cbn; [| reflexivity].
    do 2 f_equal. lia.
Qed.

Lemma length_enumerate_from {A} (l : list A) :
  forall k, length (enumerate_from k l) = length l.
Proof. induction l as [| x l IH]; intros k; cbn; [| rewrite IH]; reflexivity. Qed.

Lemma getitem_in {A} (l : list A) j x : getitem l j = Some x -> In x l.
Proof.
  unfold getitem. destruct (0 <=? j)%Z.
  - apply nth_error_In.
  - destruct (- Z.of_nat (length l) <=? j)%Z; [apply nth_error_In | discriminate].
Qed.

(** An index in [[-len, len)] never raises IndexError. *)
Lemma getitem_in_range {A} (l : list A) j :
  (- Z.of_nat (length l) <= j < Z.of_nat (length l))%Z ->
  exists x, getitem l j = Some x.
Proof.
  intros Hj. unfold getitem.
  destruct (0 <=? j)%Z eqn:H0.
  - apply Z.leb_le in H0.
    destruct (nth_error l (Z.to_nat j)) eqn:Hn; [eauto |].
    apply nth_error_None in Hn. lia.
  - apply Z.leb_gt in H0.
    replace (- Z.of_nat (length l) <=? j)%Z with true
      by (symmetry; apply Z.leb_le; lia).
    destruct (nth_error l (Z.to_nat (Z.of_nat (length l) + j))) eqn:Hn;
      [eauto |].
    apply nth_error_None in Hn. lia.
Qed.

Lemma lookup_hits_spec ds idxs :
  forall hits,
    lookup_hits ds idxs = Ok hits ->
    Forall2 (fun j h => getitem ds j = Some h) idxs hits.
Proof.
  induction idxs as [| j rest IH]; intros hits; cbn.
  - intros [= <-]. constructor.
  - destruct (getitem ds j) as [[s t] |] eqn:Hj; [| discriminate].
    destruct (lookup_hits ds rest) as [hs | e]; [| discriminate].
    intros [= <-]. constructor; [exact Hj | now apply IH].
Qed.

Lemma lookup_hits_total ds idxs :
  Forall (fun j => (- Z.of_nat (length ds) <= j < Z.of_nat (length ds))%Z) idxs ->
  exists hits, lookup_hits ds idxs = Ok hits.
Proof.
  induction 1 as [| j rest Hj _ [hs IH]]; cbn.
  - eauto.
  - destruct (getitem_in_range ds Hj) as [[s t] Hx].
    rewrite Hx, IH. eauto.
Qed.

(** [search] hands the normalized query and [top_k] to the index as they
    are. *)
Lemma search_delegates q k w idx :
  index w = Some idx ->
  search q k w = (IndexFlatIP_search (xb idx) (normalize_L2 q) k, w).
Proof.
  intros H. unfold search, bind, get, lift. now rewrite H.
Qed.

(** What a run of [ask] past its two guards looks like when it returns. *)
Lemma ask_answer_inv p w ans srcs w' :
  index w <> None -> docs w <> [] ->
  ask p w = (Ok (AskOk ans srcs), w') ->
  exists idx q rest D row more hits,
    index w = Some idx
    /\ embeddings_create (trace w) [question p] = Ok (q :: rest)
    /\ IndexFlatIP_search (xb idx) (normalize_L2 [q])
         (clamp_top_k (top_k_or_default (top_k p)) (length (docs w)))
       = Ok (D, row :: more)
    /\ lookup_hits (docs w) row = Ok hits
    /\ chat_completions_create (trace w ++ [EmbedCall [question p]])
         (make_prompt (question p) hits) = Ok ans
    /\ srcs = map source_entry (enumerate hits)
    /\ trace w' = trace w ++ [EmbedCall [question p];
                              ChatCall (make_prompt (question p) hits)].
Proof.
  intros Hi Hd. unfold ask, search, bind, get, ret, lift, raise,
    call_embeddings, call_chat.
  destruct (index w) as [idx |] eqn:Hidx; [| congruence].
  destruct (docs w) as [| d0 ds] eqn:Hdocs; [congruence |].
  cbn [is_none truthy negb orb].
  destruct (negb (truthy (strip (question p)))); [discriminate |].
  destruct (embeddings_create (trace w) [question p]) as [resp | e] eqn:He;
    [| discriminate].
  destruct resp as [| q rest]; cbn [first_item]; [discriminate |].
  cbn [index record_call]. rewrite Hidx.
  destruct (IndexFlatIP_search _ _ _) as [[D I] | e] eqn:Hs; [| discriminate].
  cbn [snd]. destruct I as [| row more]; cbn [first_item]; [discriminate |].
  destruct (lookup_hits (d0 :: ds) row) as [hits | e] eqn:Hh; [| discriminate].
  cbn [trace record_call].
  destruct (chat_completions_create _ _) as [a | e] eqn:Hc; [| discriminate].
  intros [= <- <- <-].
  exists idx, q, rest, D, row, more, hits. cbn [trace].
  repeat split; trivial. cbn [trace record_call]. now rewrite <- app_assoc.
Qed.

Lemma ask_answer p w idx q rest D row more hits ans :
  index w = Some idx -> docs w <> [] -> blank (question p) = false ->
  embeddings_create (trace w) [question p] = Ok (q :: rest) ->
  IndexFlatIP_search (xb idx) (normalize_L2 [q])
    (clamp_top_k (top_k_or_default (top_k p)) (length (docs w)))
  = Ok (D, row :: more) ->
  lookup_hits (docs w) row = Ok hits ->
  chat_completions_create (trace w ++ [EmbedCall [question p]])
    (make_prompt (question p) hits) = Ok ans ->
  fst (ask p w) = Ok (AskOk ans (map source_entry (enumerate hits))).
Proof.
  intros Hidx Hd Hb He Hs Hh Hc.
  unfold ask, search, bind, get, ret, lift, raise, call_embeddings, call_chat.
  rewrite Hidx. destruct (docs w) as [| d0 ds] eqn:Hdocs; [congruence |].
  cbn [is_none truthy negb orb].
  rewrite truthy_strip_blank, Hb. cbn [negb].
  rewrite He. cbn [first_item index record_call]. cbv zeta. rewrite Hidx, Hs.
  cbn [snd first_item]. rewrite Hh. cbn [trace record_call]. now rewrite Hc.
Qed.

End Answering.

(** ** Claims about [ask] on an indexed corpus *)

Lemma clamp_top_k_bounds k n :
  1 <= n -> (1 <= clamp_top_k k n <= Z.of_nat n)%Z.
Proof. unfold clamp_top_k. lia. Qed.

Lemma clamp_top_k_large k n :
  1 <= n -> (Z.of_nat n < k)%Z ->
  clamp_top_k (top_k_or_default (Some k)) n = Z.of_nat n.
Proof.
  intros Hn Hk. unfold clamp_top_k, top_k_or_default.
  replace (k =? 0)%Z with false by (symmetry; apply Z.eqb_neq; lia). lia.
Qed.

Lemma Forall2_length_eq {A B} (R : A -> B -> Prop) l l' :
  Forall2 R l l' -> length l = length l'.
Proof. induction 1; cbn; congruence. Qed.

(** C1, as the code has it: on a state with an index of at most n vectors
    over a corpus of n >= 1 chunks, an [ask] with a non-blank question whose
    embedding, search and generation calls succeed searches with
    k = max(1, min(top_k or 6, n)), which lies in [1, n] and is min(6, n) when
    top_k is unspecified; faiss returning k labels, each -1 or a stored
    position, the response carries exactly k sources, and exactly n when the
    requested top_k exceeds n. *)
Theorem ask_top_k_clamped `{C : Collaborators}
  (w : World) (p : AskPayload) (idx : Index)
  (q : Vec) (rest : Matrix) (D : Matrix) (row : list Z) (more : list (list Z)) :
  let n := length (docs w) in
  let k := clamp_top_k (top_k_or_default (top_k p)) n in
  index w = Some idx -> 1 <= n -> ntotal idx <= n ->
  blank (question p) = false ->
  embeddings_create (trace w) [question p] = Ok (q :: rest) ->
  IndexFlatIP_search (xb idx) (normalize_L2 [q]) k = Ok (D, row :: more) ->
  Z.of_nat (length row) = k ->
  Forall (fun j => (-1 <= j < Z.of_nat (ntotal idx))%Z) row ->
  (forall msgs,
      raises (chat_completions_create (trace w ++ [EmbedCall [question p]]) msgs)
      = false) ->
  (1 <= k <= Z.of_nat n)%Z
  /\ (top_k p = None -> k = Z.min 6 (Z.of_nat n))
  /\ exists ans srcs,
       fst (ask p w) = Ok (AskOk ans srcs)
       /\ Z.of_nat (length srcs) = k
       /\ (forall r, top_k p = Some r -> (Z.of_nat n < r)%Z -> length srcs = n).
Proof.
  intros n k Hidx Hn Hnt Hb He Hs Hlen Hlab Hchat.
  assert (Hk : (1 <= k <= Z.of_nat n)%Z) by now apply clamp_top_k_bounds.
  split; [exact Hk |]. split.
  { intros Hnone. subst k. rewrite Hnone. unfold clamp_top_k, top_k_or_default,
      TOP_K_DEFAULT. lia. }
  assert (Hd : docs w <> []).
  { intros H. subst n. rewrite H in Hn. cbn in Hn. lia. }
  destruct (@lookup_hits_total (docs w) row) as [hits Hh].
  { eapply Forall_impl; [| exact Hlab]. cbn. fold n. intros j Hj. lia. }
  pose proof (Forall2_length_eq (lookup_hits_spec _ _ Hh)) as Hhl.
  specialize (Hchat (make_prompt (question p) hits)).
  destruct (chat_completions_create _ _) as [ans | x] eqn:Hc; [| discriminate].
  exists ans, (map source_entry (enumerate hits)). split.
  - eapply ask_answer; eauto.
  - rewrite length_map. unfold enumerate. rewrite length_enumerate_from.
    rewrite <- Hhl. split; [exact Hlen |].
    intros r Hr Hbig. subst k. rewrite Hr in Hlen.
    rewrite clamp_top_k_large in Hlen by assumption. lia.
Qed.

Lemma length_enumerate {A} (l : list A) : length (enumerate l) = length l.
Proof. apply length_enumerate_from. Qed.

(** C6: every entry of the sources list of an answer over an indexed,
    non-empty corpus is the record (id, file, preview) of one retrieved
    chunk.  The retrieved chunks are the records of the store at the labels
    of the first row the index search returned for the embedded question and
    the clamped top_k, in that order; the entry of the i-th one (counting
    from 0) has id i + 1, its file is the document name stored with the
    chunk, and its preview is the first 300 characters of the chunk's text.
    The user message sent to the generation endpoint lists the same chunks
    as items numbered i + 1, each with its document name and full text. *)
Theorem ask_sources_shape `{C : Collaborators}
  (w w' : World) (p : AskPayload) (ans : option str) (srcs : list Source) :
  index w <> None -> docs w <> [] ->
  ask p w = (Ok (AskOk ans srcs), w') ->
  exists idx q rest D labels more hits items,
    index w = Some idx
    /\ embeddings_create (trace w) [question p] = Ok (q :: rest)
    /\ IndexFlatIP_search (xb idx) (normalize_L2 [q])
         (clamp_top_k (top_k_or_default (top_k p)) (length (docs w)))
       = Ok (D, labels :: more)
    /\ Forall2 (fun j h => getitem (docs w) j = Some h) labels hits
    /\ trace w'
       = trace w
         ++ [EmbedCall [question p];
             ChatCall
               [ {| role := lit "system"; content := system_prompt |};
                 {| role := lit "user";
                    content :=
                      lit "Question:" ++ NL ++ question p ++ NL ++ NL
                      ++ lit "Context chunks:" ++ NL
                      ++ join (NL ++ NL) items ++ NL ++ NL
                      ++ lit "Instructions:" ++ NL
                      ++ lit "- If you use multiple chunks, cite like [1][3]."
                      ++ NL ++ lit "- Be concise and precise." |} ]]
    /\ length srcs = length hits
    /\ length items = length hits
    /\ forall i s t,
         nth_error hits i = Some (s, t) ->
         nth_error srcs i
         = Some {| id := Z.of_nat i + 1; file := s; preview := firstn 300 t |}
         /\ nth_error items i
            = Some (lit "[" ++ str_of_int (Z.of_nat i + 1) ++ lit "] ("
                    ++ s ++ lit ")" ++ NL ++ t).
Proof.
  intros Hi Hd Hask.
  destruct (@ask_answer_inv _ p w ans srcs w' Hi Hd Hask)
    as (idx & q & rest & D & row & more & hits
        & Hidx & He & Hs & Hh & _ & -> & Ht).
  exists idx, q, rest, D, row, more, hits,
    (map context_item (enumerate hits)).
  split; [exact Hidx |]. split; [exact He |]. split; [exact Hs |].
  split; [now apply lookup_hits_spec |].
  split; [exact Ht |].
  split; [now rewrite length_map, length_enumerate |].
  split; [now rewrite length_map, length_enumerate |].
  intros i s t Hnth. unfold enumerate.
  rewrite !nth_error_map, nth_error_enumerate_from, Hnth. cbn.
  now split.
Qed.

(** ** Extraction failures *)

Section Extraction.

Context {C : Collaborators}.

(** What the function does promise: a name with none of the known suffixes
    gives the empty string, and so does a .doc file without textract. *)
Lemma read_file_to_text_unsupported b name :
  endswith (lower name) (lit ".txt") = false ->
  endswith (lower name) (lit ".md") = false ->
  endswith (lower name) (lit ".pdf") = false ->
  endswith (lower name) (lit ".docx") = false ->
  endswith (lower name) (lit ".doc") = false ->
  read_file_to_text b name = Ok [].
Proof.
  intros H1 H2 H3 H4 H5. unfold read_file_to_text.
  now rewrite H1, H2, H3, H4, H5.
Qed.

(** A page whose extraction raises is replaced by the empty string: once the
    document is open, the PDF branch returns. *)
Lemma read_file_to_text_pdf_pages b pages :
  PdfReader_pages b = Ok pages ->
  read_file_to_text b (lit "a.pdf") = Ok (join (NL ++ NL) (map page_text pages)).
Proof.
  intros H. unfold read_file_to_text.
  change (lower (lit "a.pdf")) with (lit "a.pdf").
  change (endswith (lit "a.pdf") (lit ".txt")) with false.
  change (endswith (lit "a.pdf") (lit ".md")) with false.
  change (endswith (lit "a.pdf") (lit ".pdf")) with true.
  cbn [orb]. now rewrite H.
Qed.

(** The same gap in the .docx branch. *)
Lemma read_file_to_text_docx_raises b e :
  Document b = Raise e -> read_file_to_text b (lit "a.docx") = Raise e.
Proof.
  intros H. unfold read_file_to_text.
  change (lower (lit "a.docx")) with (lit "a.docx").
  change (endswith (lit "a.docx") (lit ".txt")) with false.
  change (endswith (lit "a.docx") (lit ".md")) with false.
  change (endswith (lit "a.docx") (lit ".pdf")) with false.
  change (endswith (lit "a.docx") (lit ".docx")) with true.
  cbn [orb]. now rewrite H.
Qed.

(** And in the .doc branch, when textract is installed. *)
Lemma read_file_to_text_doc_raises b e :
  HAS_TEXTRACT = true -> textract_process b = Raise e ->
  read_file_to_text b (lit "a.doc") = Raise e.
Proof.
  intros Ht H. unfold read_file_to_text.
  change (lower (lit "a.doc")) with (lit "a.doc").
  change (endswith (lit "a.doc") (lit ".txt")) with false.
  change (endswith (lit "a.doc") (lit ".md")) with false.
  change (endswith (lit "a.doc") (lit ".pdf")) with false.
  change (endswith (lit "a.doc") (lit ".docx")) with false.
  change (endswith (lit "a.doc") (lit ".doc")) with true.
  cbn [orb]. now rewrite Ht, H.
Qed.

(** [upload] does not catch it either: the request fails. *)
Lemma upload_propagates f rest w e :
  read_file_to_text (data f) (filename f) = Raise e ->
  upload (f :: rest) w = (Raise e, w).
Proof.
  intros H. unfold upload, bind. cbn [upload_loop].
  unfold bind, upload_file, lift. now rewrite H.
Qed.

End Extraction.

(** C7 fails on the code: a PDF that the parser refuses to open makes
    [read_file_to_text] raise, since only the per-page extraction is guarded. *)
Theorem read_file_to_text_raises `{C : Collaborators} (b : bytes) (e : exn) :
  PdfReader_pages b = Raise e ->
  read_file_to_text b (lit "a.pdf") = Raise e.
Proof.
  intros H. unfold read_file_to_text.
  change (lower (lit "a.pdf")) with (lit "a.pdf").
  change (endswith (lit "a.pdf") (lit ".txt")) with false.
  change (endswith (lit "a.pdf") (lit ".md")) with false.
  change (endswith (lit "a.pdf") (lit ".pdf")) with true.
  cbn [orb]. now rewrite H.
Qed.

(** ** Runs on the concrete collaborators *)

Lemma toy_decode_encode t toks :
  Toy.encode t = Ok toks -> Toy.decode toks = t.
Proof.
  intros [= <-]. unfold Toy.decode. rewrite map_map.
  rewrite <- (map_id t) at 2. apply map_ext. intros c. apply N2Z.id.
Qed.

Lemma toy_decode_app a b :
  Toy.decode (a ++ b) = Toy.decode a ++ Toy.decode b.
Proof. apply map_app. Qed.

Lemma toy_indexed_reachable budget :
  reachable (C := Toy.world budget) (Toy.indexed budget).
Proof. unfold Toy.indexed. do 2 apply reach_step. apply reach_init. Qed.

Lemma toy_stale_reachable budget :
  reachable (C := Toy.world budget) (Toy.stale budget).
Proof. unfold Toy.stale. apply reach_step. apply toy_indexed_reachable. Qed.

(** 700 tokens give windows at 0, 340 and 680. *)
Example chunk_text_700 :
  match chunk_text (C := Toy.world 0) (repeat 65%N 700) with
  | Ok cs => map (@length char) cs = [400; 360; 20]
  | Raise _ => False
  end.
Proof. vm_compute. reflexivity. Qed.

(** Trimming happens per window, after decoding. *)
Example chunk_text_trims :
  chunk_text (C := Toy.world 0) (lit "  a cat  ") = Ok [lit "a cat"].
Proof. vm_compute. reflexivity. Qed.

(** A page that raises contributes the empty string. *)
Example read_pdf_pages :
  read_file_to_text (C := Toy.world 0) (list_byte_of_string "x") (lit "A.PDF")
  = Ok (lit "x" ++ NL ++ NL ++ NL ++ NL).
Proof. vm_compute. reflexivity. Qed.

Example read_unsupported :
  read_file_to_text (C := Toy.world 0) (list_byte_of_string "x") (lit "a.png")
  = Ok [].
Proof. vm_compute. reflexivity. Qed.

(** On a stale index the labels beyond the stored vectors are -1, and
    [docs[-1]] is the last chunk. *)
Example ask_on_stale_index :
  match fst (ask (C := Toy.world 9) (what_sat (Some 5%Z)) (Toy.stale 9)) with
  | Ok (AskOk _ srcs) => map file srcs = [lit "notes.txt"; lit "more.md"]
  | _ => False
  end.
Proof. vm_compute. reflexivity. Qed.

(** C1 as stated fails: on an indexed corpus of one chunk, an ask with
    top_k = 5 and a blank question returns the "no_question" status, which
    has no sources list at all. *)
Lemma ask_blank_question_has_no_sources :
  let w := Toy.indexed 9 in
  let p := blank_question (Some 5%Z) in
  reachable (C := Toy.world 9) w
  /\ index w <> None
  /\ length (docs w) = 1
  /\ fst (ask (C := Toy.world 9) p w) = Ok AskNoQuestion
  /\ ~ (exists ans srcs,
          fst (ask (C := Toy.world 9) p w) = Ok (AskOk ans srcs)
          /\ length srcs = 1).
Proof.
  cbv zeta. split; [apply toy_indexed_reachable |].
  split; [vm_compute; discriminate |].
  split; [vm_compute; reflexivity |].
  split; [vm_compute; reflexivity |].
  intros (ans & srcs & H & _). vm_compute in H. discriminate.
Qed.

Lemma ask_top_k_clamped_witness :
  exists ans srcs,
    fst (ask (C := Toy.world 9) (what_sat (Some 5%Z)) (Toy.stale 9))
    = Ok (AskOk ans srcs)
    /\ length srcs = 2.
Proof.
  destruct (@ask_top_k_clamped (Toy.world 9) (Toy.stale 9)
              (what_sat (Some 5%Z)) (Toy.cat_index 9)
              [9%Z; 1%Z] [] [[0%Z; 0%Z]] [0%Z; (-1)%Z] [])
    as (_ & _ & ans & srcs & Hask & _ & Hn).
  - vm_compute. reflexivity.
  - vm_compute. lia.
  - vm_compute. lia.
  - vm_compute. reflexivity.
  - vm_compute. reflexivity.
  - vm_compute. reflexivity.
  - vm_compute. reflexivity.
  - repeat constructor; vm_compute; congruence.
  - intros msgs. reflexivity.
  - exists ans, srcs. split; [exact Hask |].
    apply (Hn 5%Z); [reflexivity | vm_compute; reflexivity].
Defined.

Lemma ask_without_index_or_docs_witness :
  ask (C := Toy.world 9) (what_sat None) init_world
  = (Ok (AskOk (Some insufficient_answer) []), init_world).
Proof.
  apply (proj1 (@ask_without_index_or_docs (Toy.world 9))).
  left. reflexivity.
Defined.

(** C3 as stated fails: with a byte-level tokenizer, 114 OGHAM SPACE MARKs
    are whitespace only and decode back from their 342 tokens, yet the
    window at offset 340 holds the last two bytes of a character and decodes
    to two replacement characters, which survive trimming as a chunk. *)
Lemma chunk_text_whitespace_gives_chunk :
  blank Toy.ogham_spaces = true
  /\ (exists tokens,
        enc_encode (Collaborators := Toy.bytewise) Toy.ogham_spaces = Ok tokens
        /\ length tokens = 342
        /\ enc_decode (Collaborators := Toy.bytewise) tokens = Toy.ogham_spaces
        /\ enc_decode (Collaborators := Toy.bytewise)
             (firstn 400 (skipn 340 tokens)) = [65533%N; 65533%N])
  /\ chunk_text (C := Toy.bytewise) Toy.ogham_spaces
     = Ok [[65533%N; 65533%N]]
  /\ chunk_text (C := Toy.bytewise) Toy.ogham_spaces <> Ok [].
Proof.
  split; [vm_compute; reflexivity |]. split.
  { eexists. split; [reflexivity |]. repeat split; vm_compute; reflexivity. }
  split; [vm_compute; reflexivity |].
  vm_compute. discriminate.
Qed.

Lemma chunk_text_reference_witness :
  chunk_text (C := Toy.world 0) (lit "   ") = Ok []
  /\ chunk_text (C := Toy.world 0) [] = Ok []
  /\ chunk_text (C := Toy.bytewise) (repeat 5760%N 113) = Ok [].
Proof.
  split; [| split].
  - apply (proj2 (proj2 (@chunk_text_reference (Toy.world 0))));
      try reflexivity.
    + exact toy_decode_encode.
    + exact toy_decode_app.
  - apply (proj2 (proj2 (@chunk_text_reference (Toy.world 0))));
      try reflexivity.
    + exact toy_decode_encode.
    + exact toy_decode_app.
  - apply (proj1 (proj2 (@chunk_text_reference Toy.bytewise))
             (repeat 5760%N 113) (flat_map Toy.utf8_bytes (repeat 5760%N 113))).
    + reflexivity.
    + vm_compute. reflexivity.
    + vm_compute. lia.
    + vm_compute. reflexivity.
Defined.

(** The endpoint answers the first build and fails the second: the first
    index stays. *)
Lemma build_embedding_failure_witness :
  fst (build (C := Toy.world 1) (Toy.stale 1)) = Raise (External "RateLimitError")
  /\ index (snd (build (C := Toy.world 1) (Toy.stale 1)))
     = Some (Toy.cat_index 1).
Proof.
  destruct (@build_embedding_failure (Toy.world 1) (Toy.stale 1)
              (External "RateLimitError")) as (Hr & _ & _ & Hi).
  - vm_compute. reflexivity.
  - split; [exact Hr |]. rewrite Hi. vm_compute. reflexivity.
Defined.

Lemma ask_sources_shape_witness :
  exists labels hits,
    labels = [0%Z; (-1)%Z]
    /\ Forall2 (fun j h => getitem (docs (Toy.stale 9)) j = Some h) labels hits
    /\ length hits = 2.
Proof.
  destruct (@ask_sources_shape (Toy.world 9) (Toy.stale 9)
              (snd (ask (C := Toy.world 9) (what_sat (Some 5%Z)) (Toy.stale 9)))
              (what_sat (Some 5%Z)) (Some (lit "A cat."))
              [ {| id := 1; file := lit "notes.txt";
                   preview := lit "A cat sat. A dog ran." |};
                {| id := 2; file := lit "more.md";
                   preview := lit "Dogs run." |} ])
    as (idx & q & rest & D & labels & more & hits & items
        & Hidx & He & Hs & Hl & _ & Hlen & _).
  - vm_compute. discriminate.
  - vm_compute. discriminate.
  - vm_compute. reflexivity.
  - exists labels, hits. split; [| split; [exact Hl | now rewrite <- Hlen]].
    assert (Hidx' : idx = Toy.cat_index 9)
      by (vm_compute in Hidx; now injection Hidx as <-).
    assert (Hq : q = [9%Z; 1%Z])
      by (vm_compute in He; now injection He as <- _).
    subst idx q. vm_compute in Hs. now injection Hs as _ <- _.
Defined.

Lemma read_file_to_text_raises_witness :
  read_file_to_text (C := Toy.world 0) [] (lit "a.pdf")
  = Raise (External "EmptyFileError").
Proof.
  apply (@read_file_to_text_raises (Toy.world 0)). reflexivity.
Defined.

Lemma build_empty_store_witness :
  index (snd (build (C := Toy.world 9)
                (exec (C := Toy.world 9) OpReset (Toy.indexed 9)))) = None.
Proof.
  apply (@build_empty_store (Toy.world 9)).
  - apply reach_step. apply toy_indexed_reachable.
  - reflexivity.
Defined.

Lemma ask_blank_question_witness :
  ask (C := Toy.world 9) (blank_question None) (Toy.indexed 9)
  = (Ok AskNoQuestion, Toy.indexed 9).
Proof.
  apply (@ask_blank_question (Toy.world 9)).
  - apply toy_indexed_reachable.
  - vm_compute. discriminate.
  - reflexivity.
Defined.

Lemma index_present_implies_docs_witness : docs (Toy.stale 9) <> [].
Proof.
  apply (proj1 (@index_present_implies_docs (Toy.world 9))).
  - apply toy_stale_reachable.
  - vm_compute. discriminate.
Defined.

(** * Further properties of the code *)

(** ** Trimming *)

Lemma lstrip_idem s : lstrip (lstrip s) = lstrip s.
Proof.
  induction s as [| c s IH]; cbn; [reflexivity |].
  destruct (isspace c) eqn:Hc; [exact IH |]. cbn. now rewrite Hc.
Qed.

Lemma rstrip_idem s : rstrip (rstrip s) = rstrip s.
Proof. unfold rstrip. now rewrite rev_involutive, lstrip_idem. Qed.

(** [rstrip] cuts a blank tail. *)
Lemma rstrip_prefix s : exists tail, blank tail = true /\ s = rstrip s ++ tail.
Proof.
  destruct (lstrip_suffix (rev s)) as [pre [Hpre Hs]].
  exists (rev pre). split; [now rewrite blank_rev |].
  unfold rstrip. rewrite <- rev_app_distr, <- Hs. now rewrite rev_involutive.
Qed.

Lemma lstrip_fixed_head s c rest :
  lstrip s = s -> s = c :: rest -> isspace c = false.
Proof.
  intros Hfix ->. cbn in Hfix. destruct (isspace c) eqn:Hc; [| reflexivity].
  exfalso. destruct (lstrip_suffix rest) as [pre [_ Hpre]].
  rewrite Hfix in Hpre. apply (f_equal (@length char)) in Hpre.
  rewrite length_app in Hpre. cbn in Hpre. lia.
Qed.

Lemma lstrip_rstrip_fixed s : lstrip s = s -> lstrip (rstrip s) = rstrip s.
Proof.
  intros Hfix. destruct (rstrip_prefix s) as [tail [_ Hs]].
  destruct (rstrip s) as [| c r] eqn:Hr; [reflexivity |].
  cbn [app] in Hs. cbn [lstrip]. now rewrite (lstrip_fixed_head Hfix Hs).
Qed.

Lemma strip_idem s : strip (strip s) = strip s.
Proof.
  unfold strip.
  rewrite (lstrip_rstrip_fixed (lstrip_idem s)). apply rstrip_idem.
Qed.

(** ** The windows of the chunker *)

Section Windows.

Context {C : Collaborators}.

Lemma filter_all {A} (f : A -> bool) (l : list A) :
  (forall x, In x l -> f x = true) -> filter f l = l.
Proof.
  induction l as [| x l IH]; intros H; cbn; [reflexivity |].
  rewrite (H x (or_introl eq_refl)). f_equal. apply IH.
  intros y Hy. apply H. now right.
Qed.

Lemma window_count_le n : window_count n <= n.
Proof.
  unfold window_count.
  pose proof (Nat.div_mod_eq (n + 339) 340) as Hd.
  pose proof (Nat.mod_upper_bound (n + 339) 340) as Hm. lia.
Qed.

Lemma window_count_spec n k : k < window_count n <-> k * 340 < n.
Proof.
  unfold window_count.
  pose proof (Nat.div_mod_eq (n + 339) 340) as Hd.
  pose proof (Nat.mod_upper_bound (n + 339) 340) as Hm. lia.
Qed.

Lemma ref_offsets_multiples n :
  ref_offsets n = map (fun k => k * 340) (seq 0 (window_count n)).
Proof.
  unfold ref_offsets.
  assert (Hsplit : seq 0 n
                   = seq 0 (window_count n)
                     ++ seq (window_count n) (n - window_count n)).
  { rewrite <- seq_app. f_equal. pose proof (window_count_le n). lia. }
  rewrite Hsplit, map_app, filter_app.
  rewrite filter_all, filter_none; [apply app_nil_r | |].
  - intros o Ho. apply in_map_iff in Ho as [k [<- Hk]]. apply in_seq in Hk.
    apply Nat.ltb_ge. destruct (Nat.lt_ge_cases (k * 340) n) as [Hlt | Hge];
      [| exact Hge].
    apply window_count_spec in Hlt. lia.
  - intros o Ho. apply in_map_iff in Ho as [k [<- Hk]]. apply in_seq in Hk.
    apply Nat.ltb_lt. apply window_count_spec. lia.
Qed.

Lemma chunk_loop_windows tokens :
  chunk_loop tokens 0 []
  = map (fun o => enc_decode (window tokens o)) (ref_offsets (length tokens)).
Proof.
  rewrite (chunk_loop_offsets tokens (fuel := length tokens)) by lia.
  cbn [app]. now rewrite offsets_from_ref.
Qed.

Lemma window_nth tokens o j :
  o <= j < o + 400 ->
  nth_error (window tokens o) (j - o) = nth_error tokens j.
Proof.
  intros Hj. unfold window, slice. rewrite chunk_tokens_value.
  rewrite nth_error_firstn.
  replace (j - o <? 400) with true by (symmetry; apply Nat.ltb_lt; lia).
  rewrite nth_error_skipn. f_equal. lia.
Qed.

End Windows.

(** X5: before trimming, the loop of [chunk_text] yields one decoded window
    per multiple of 340 below the token count, that is ceil(n / 340) windows,
    and every token position lies in one of them at the matching place: no
    token of the text is left out. *)
Theorem chunk_windows_cover `{C : Collaborators} (tokens : list Z) :
  chunk_loop tokens 0 []
  = map (fun o => enc_decode (window tokens o))
      (map (fun k => k * 340) (seq 0 ((length tokens + 339) / 340)))
  /\ forall j, j < length tokens ->
       let o := j / 340 * 340 in
       In o (ref_offsets (length tokens))
       /\ o <= j < o + 400
       /\ nth_error (window tokens o) (j - o) = nth_error tokens j.
Proof.
  split.
  - rewrite chunk_loop_windows, ref_offsets_multiples. reflexivity.
  - intros j Hj o.
    assert (Ho : o <= j < o + 340).
    { subst o. pose proof (Nat.div_mod_eq j 340) as Hd.
      pose proof (Nat.mod_upper_bound j 340) as Hm. lia. }
    split; [| split; [lia | apply window_nth; lia]].
    rewrite ref_offsets_multiples. apply in_map_iff.
    exists (j / 340). split; [reflexivity |].
    apply in_seq. split; [lia |]. cbn [plus].
    apply window_count_spec. fold o. lia.
Qed.

Lemma nth_error_multiples c k :
  k < c ->
  nth_error (map (fun j => j * 340) (seq 0 c)) k = Some (k * 340).
Proof.
  intros Hk. rewrite nth_error_map.
  replace (nth_error (seq 0 c) k) with (Some k); [reflexivity |].
  symmetry. rewrite nth_error_nth' with (d := 0) by (rewrite length_seq; lia).
  now rewrite seq_nth by lia.
Qed.

Lemma chunk_loop_nth `{C : Collaborators} (tokens : list Z) (k : nat) :
  k * 340 < length tokens ->
  nth_error (chunk_loop tokens 0 []) k
  = Some (enc_decode (firstn 400 (skipn (k * 340) tokens))).
Proof.
  intros Hk. rewrite chunk_loop_windows, ref_offsets_multiples.
  rewrite nth_error_map, nth_error_multiples by now apply window_count_spec.
  cbn [option_map]. unfold window, slice. now rewrite chunk_tokens_value.
Qed.

(** X6: consecutive windows of the loop of [chunk_text] overlap by
    CHUNK_OVERLAP tokens.  When the loop yields a window number k + 1, its
    results number k and k + 1 are the decodings of the token slices starting
    at 340 k and 340 (k + 1), and the first 60 tokens of the later slice are
    the tokens of the earlier slice from position 340 on: 60 of them when the
    earlier window is full, fewer at the end of the text. *)
Theorem chunk_windows_overlap `{C : Collaborators} (tokens : list Z) (k : nat) :
  (k + 1) * 340 < length tokens ->
  let a := firstn 400 (skipn (k * 340) tokens) in
  let b := firstn 400 (skipn ((k + 1) * 340) tokens) in
  nth_error (chunk_loop tokens 0 []) k = Some (enc_decode a)
  /\ nth_error (chunk_loop tokens 0 []) (k + 1) = Some (enc_decode b)
  /\ firstn 60 b = skipn 340 a
  /\ length (skipn 340 a) = Nat.min 60 (length tokens - (k + 1) * 340).
Proof.
  intros Hk a b. subst a b.
  split; [apply chunk_loop_nth; lia |].
  split; [apply chunk_loop_nth; lia |].
  split.
  - rewrite firstn_firstn, skipn_firstn_comm, skipn_skipn.
    replace (Nat.min 60 400) with 60 by reflexivity.
    replace (400 - 340) with 60 by reflexivity.
    f_equal. f_equal. lia.
  - rewrite length_skipn, length_firstn, length_skipn. lia.
Qed.

Lemma chunk_text_forall_trimmed `{C : Collaborators} (text : str) (cs : list str) :
  chunk_text text = Ok cs -> Forall (fun c => c <> [] /\ strip c = c) cs.
Proof.
  unfold chunk_text.
  destruct (enc_encode text) as [tokens | e]; [| discriminate].
  intros [= <-]. apply Forall_forall. intros c Hc.
  apply in_map_iff in Hc as [d [<- Hd]]. apply filter_In in Hd as [_ Hd].
  split; [| apply strip_idem]. now destruct (strip d).
Qed.

(** X4: every chunk [chunk_text] returns is non-empty and already trimmed,
    and there are at most ceil(n / 340) of them for a text of n tokens. *)
Theorem chunk_text_chunks_trimmed `{C : Collaborators}
  (text : str) (cs : list str) :
  chunk_text text = Ok cs ->
  Forall (fun c => c <> [] /\ strip c = c) cs
  /\ exists tokens, enc_encode text = Ok tokens
                    /\ length cs <= (length tokens + 339) / 340.
Proof.
  intros H. split; [exact (chunk_text_forall_trimmed _ H) |].
  unfold chunk_text in H.
  destruct (enc_encode text) as [tokens | e]; [| discriminate].
  injection H as <-. exists tokens. split; [reflexivity |].
  rewrite length_map. etransitivity; [apply filter_length_le |].
  rewrite chunk_loop_windows, ref_offsets_multiples, !length_map.
  now rewrite length_seq.
Qed.

(** ** The batches of [embed_texts] *)

Section Batches.

Context {C : Collaborators}.

Lemma firstn_plus {A} (l : list A) a b :
  firstn (a + b) l = firstn a l ++ firstn b (skipn a l).
Proof.
  revert l. induction a as [| a IH]; intros l; [reflexivity |].
  destruct l as [| x l]; cbn [plus firstn skipn app].
  - now rewrite firstn_nil.
  - now rewrite IH.
Qed.

Lemma concat_slices {A} (l : list A) s c :
  concat (map (fun i => slice l i s) (map (fun k => k * s) (seq 0 c)))
  = firstn (c * s) l.
Proof.
  induction c as [| c IH]; [reflexivity |].
  rewrite seq_S, !map_app, concat_app, IH. cbn [map concat plus].
  rewrite app_nil_r. unfold slice.
  replace (S c * s) with (c * s + s) by lia. now rewrite firstn_plus.
Qed.

Lemma range_step_reaches n s : 0 < s -> n <= (n + s - 1) / s * s.
Proof.
  intros Hs.
  pose proof (Nat.div_mod_eq (n + s - 1) s) as Hd.
  pose proof (Nat.mod_upper_bound (n + s - 1) s ltac:(lia)) as Hm. nia.
Qed.

Lemma range_step_below n s i : 0 < s -> In i (range_step n s) -> i < n.
Proof.
  intros Hs Hi. unfold range_step in Hi.
  apply in_map_iff in Hi as [k [<- Hk]]. apply in_seq in Hk.
  pose proof (Nat.div_mod_eq (n + s - 1) s) as Hd.
  pose proof (Nat.mod_upper_bound (n + s - 1) s ltac:(lia)) as Hm.
  assert (S k * s <= (n + s - 1) / s * s) by (apply Nat.mul_le_mono_r; lia).
  nia.
Qed.

Lemma B_pos : 0 < B.
Proof. unfold B. lia. Qed.

Lemma concat_batches texts : concat (batches texts) = texts.
Proof.
  unfold batches, range_step. rewrite concat_slices.
  apply firstn_all2. apply range_step_reaches. exact B_pos.
Qed.

Lemma batch_sizes texts :
  Forall (fun b => 1 <= length b <= B) (batches texts).
Proof.
  apply Forall_forall. intros b Hb. unfold batches in Hb.
  apply in_map_iff in Hb as [i [<- Hi]].
  apply range_step_below in Hi; [| exact B_pos]. unfold slice.
  rewrite length_firstn, length_skipn. pose proof B_pos. lia.
Qed.

(** The calls made by the loop, in order: a prefix of the batches, all of
    them when the loop returns. *)
Lemma embed_batches_trace texts offsets :
  forall vecs w,
    exists m,
      m <= length offsets
      /\ trace (snd (embed_batches texts offsets vecs w))
         = trace w
           ++ map (fun i => EmbedCall (slice texts i B)) (firstn m offsets)
      /\ (raises (fst (embed_batches texts offsets vecs w)) = false ->
          m = length offsets)
      /\ (raises (fst (embed_batches texts offsets vecs w)) = true -> 1 <= m).
Proof.
  induction offsets as [| i rest IH]; intros vecs w; cbn [embed_batches].
  - exists 0. cbn. rewrite app_nil_r.
    split; [lia |]. split; [reflexivity |]. split; [reflexivity | discriminate].
  - unfold bind, call_embeddings.
    destruct (embeddings_create (trace w) (slice texts i B)) as [data | e].
    + destruct (IH (vecs ++ data) (record_call (EmbedCall (slice texts i B)) w))
        as (m & Hm & Ht & Hok & Hbad).
      exists (S m). cbn [length firstn map]. rewrite Ht. cbn [trace record_call].
      rewrite <- app_assoc.
      split; [lia |]. split; [reflexivity |]. split.
      * intros H. now rewrite (Hok H).
      * intros H. lia.
    + exists 1. cbn [fst snd raises firstn map trace record_call length].
      split; [lia |]. split; [reflexivity |]. split; [discriminate | lia].
Qed.

(** When every call answers with one vector per text, computed from the
    text alone, the loop returns those vectors in the order of the texts. *)
Lemma embed_batches_pointwise (f : str -> Vec) texts offsets :
  (forall tr input vecs,
      embeddings_create tr input = Ok vecs -> vecs = map f input) ->
  forall acc w vecs w',
    embed_batches texts offsets acc w = (Ok vecs, w') ->
    vecs = acc ++ map f (concat (map (fun i => slice texts i B) offsets)).
Proof.
  intros Hf. induction offsets as [| i rest IH]; intros acc w vecs w';
    cbn [embed_batches map concat].
  - unfold ret. intros [= <- _]. now rewrite app_nil_r.
  - unfold bind, call_embeddings.
    destruct (embeddings_create (trace w) (slice texts i B)) as [data | e]
      eqn:Hcall; [| discriminate].
    intros H. apply IH in H. rewrite H, (Hf _ _ _ Hcall).
    now rewrite map_app, app_assoc.
Qed.

End Batches.

(** A run of the batch loop, call by call: [m] calls returned, each asked
    with the history left by the calls before it; then either the batches
    are exhausted, or the next call raised and the loop ended there. *)
Lemma embed_batches_run `{C : Collaborators} (texts : list str) offsets :
  forall vecs w,
    let bs := map (fun i => slice texts i B) offsets in
    let R := embed_batches texts offsets vecs w in
    exists m,
      m <= length bs
      /\ (forall j b, j < m -> nth_error bs j = Some b ->
            raises (embeddings_create
                      (trace w ++ map EmbedCall (firstn j bs)) b) = false)
      /\ ((m = length bs /\ raises (fst R) = false
           /\ trace (snd R) = trace w ++ map EmbedCall bs)
          \/ (exists b e,
                nth_error bs m = Some b
                /\ embeddings_create
                     (trace w ++ map EmbedCall (firstn m bs)) b = Raise e
                /\ fst R = Raise e
                /\ trace (snd R)
                   = trace w ++ map EmbedCall (firstn (S m) bs))).
Proof.
  induction offsets as [| i rest IH]; intros vecs w; cbv zeta;
    cbn [embed_batches map].
  - exists 0. split; [cbn; lia |]. split; [intros j b Hj; lia |].
    left. cbn. now rewrite app_nil_r.
  - unfold bind, call_embeddings.
    destruct (embeddings_create (trace w) (slice texts i B)) as [data | e]
      eqn:Hcall.
    + destruct (IH (vecs ++ data) (record_call (EmbedCall (slice texts i B)) w))
        as (m & Hm & Hok & Hend). cbv zeta in Hm, Hok, Hend.
      cbn [trace record_call] in Hok, Hend.
      exists (S m). split; [cbn [length]; lia |]. split.
      * intros [| j] b Hj Hb; cbn [nth_error firstn map] in *.
        -- injection Hb as <-. now rewrite app_nil_r, Hcall.
        -- rewrite <- (Hok j b ltac:(lia) Hb). f_equal. f_equal.
           now rewrite <- app_assoc.
      * destruct Hend as [(Hall & Hres & Htr) | (b & e & Hb & Hc & Hres & Htr)].
        -- left. cbn [length]. split; [lia |]. split; [exact Hres |].
           rewrite Htr. now rewrite <- app_assoc.
        -- right. exists b, e. cbn [nth_error firstn map].
           split; [exact Hb |]. split.
           ++ rewrite <- Hc. f_equal. now rewrite <- app_assoc.
           ++ split; [exact Hres |]. rewrite Htr. now rewrite <- app_assoc.
    + exists 0. split; [cbn; lia |]. split; [intros j b Hj; lia |].
      right. exists (slice texts i B), e. cbn [nth_error firstn map fst snd].
      rewrite app_nil_r. now repeat split.
Qed.

(** X7: the batches a returning [embed_texts] has sent partition the texts:
    the calls it added to the history are embedding calls whose inputs,
    concatenated in order, give back the list of texts; each holds between 1
    and 1000 texts, and there are ceil(n / 1000) of them. *)
Theorem embed_batches_partition `{C : Collaborators}
  (texts : list str) (w w' : World) (m : Matrix) :
  embed_texts texts w = (Ok m, w') ->
  exists bs,
    trace w' = trace w ++ map EmbedCall bs
    /\ concat bs = texts
    /\ Forall (fun b => 1 <= length b <= 1000) bs
    /\ length bs = (length texts + 999) / 1000.
Proof.
  intros Hrun. exists (batches texts).
  split; [| split; [apply concat_batches | split; [apply batch_sizes |]]].
  - destruct (embed_batches_trace texts (range_step (length texts) B) [] w)
      as (k & _ & Ht & Hok & _).
    unfold embed_texts, bind, lift in Hrun.
    destruct (embed_batches texts (range_step (length texts) B) [] w)
      as [[vecs | e] w1]; cbn [fst snd] in *; [| discriminate].
    specialize (Hok eq_refl). subst k. rewrite firstn_all in Ht.
    injection Hrun as _ <-. unfold batches. now rewrite map_map.
  - unfold batches, range_step. rewrite !length_map, length_seq.
    unfold B. f_equal. lia.
Qed.

(** X8: [embed_texts] calls the embedding endpoint batch by batch, in order,
    and stops at the first call that raises.  Some number m of calls
    returned, each asked with the history left by the calls before it; then
    either all the batches were sent and nothing else, or call number m
    raised, [embed_texts] raises that exception, and the history ends with
    that call: no batch after it is sent. *)
Theorem embed_texts_calls `{C : Collaborators} (texts : list str) (w : World) :
  exists m,
    m <= length (batches texts)
    /\ (forall j b, j < m -> nth_error (batches texts) j = Some b ->
          raises (embeddings_create
                    (trace w ++ map EmbedCall (firstn j (batches texts))) b)
          = false)
    /\ ((m = length (batches texts)
         /\ trace (snd (embed_texts texts w))
            = trace w ++ map EmbedCall (batches texts))
        \/ (exists b e,
              nth_error (batches texts) m = Some b
              /\ embeddings_create
                   (trace w ++ map EmbedCall (firstn m (batches texts))) b
                 = Raise e
              /\ fst (embed_texts texts w) = Raise e
              /\ trace (snd (embed_texts texts w))
                 = trace w ++ map EmbedCall (firstn (S m) (batches texts))))
    /\ (raises (fst (embed_texts texts w)) = false ->
        m = length (batches texts)).
Proof.
  destruct (embed_batches_run texts (range_step (length texts) B) [] w)
    as (m & Hm & Hok & Hend). cbv zeta in Hm, Hok, Hend.
  fold (batches texts) in Hm, Hok, Hend.
  exists m. split; [exact Hm |]. split; [exact Hok |].
  unfold embed_texts, bind, lift.
  destruct (embed_batches texts (range_step (length texts) B) [] w)
    as [[vecs | x] w1]; cbn [fst snd] in *.
  - destruct Hend as [(Hall & _ & Htr) | (b & e & _ & _ & Hres & _)];
      [| discriminate].
    split; [left; now split | intros _; exact Hall].
  - destruct Hend as [(_ & Hres & _) | (b & e & Hb & Hc & Hres & Htr)];
      [discriminate |].
    split; [| discriminate].
    right. exists b, e. now repeat split.
Qed.

(** X9: when the endpoint answers each call with one vector per text,
    computed from the text alone, a returning [embed_texts] gives the vectors
    of the texts in the order of the texts, whatever the batching: row i
    belongs to text i. *)
Theorem embed_texts_aligned `{C : Collaborators} (f : str -> Vec)
  (texts : list str) (w w' : World) (m : Matrix) :
  (forall tr input vecs,
      embeddings_create tr input = Ok vecs -> vecs = map f input) ->
  embed_texts texts w = (Ok m, w') ->
  m = map f texts.
Proof.
  intros Hf. unfold embed_texts, bind, lift.
  destruct (embed_batches texts (range_step (length texts) B) [] w)
    as [[vecs | e] w1] eqn:Hb; [| discriminate].
  apply (embed_batches_pointwise f _ _ Hf) in Hb. cbn [app] in Hb.
  fold (batches texts) in Hb. rewrite concat_batches in Hb.
  unfold np_array. destruct (rectangular vecs); [| discriminate].
  intros [= <- _]. exact Hb.
Qed.

(** ** What a build leaves behind *)

Section BuildResult.

Context {C : Collaborators}.

(** The paths of [build] over a non-empty store. *)
Lemma build_paths w :
  docs w <> [] ->
  let texts := map snd (docs w) in
  let w1 := snd (embed_texts texts w) in
  match fst (embed_texts texts w) with
  | Raise e => build w = (Raise e, w1)
  | Ok [] =>
      build w = (Raise IndexError,
                 {| docs := docs w1; embs := Some []; index := index w1;
                    trace := trace w1 |})
  | Ok (row :: rows) =>
      build w
      = (Ok {| chunks := Z.of_nat (length texts); message := None |},
         {| docs := docs w1;
            embs := Some (normalize_L2 (row :: rows));
            index := Some {| dim := length row;
                             xb := normalize_L2 (row :: rows) |};
            trace := trace w1 |})
  end.
Proof.
  intros Hd texts w1. subst texts w1. unfold build, bind, get.
  destruct (docs w) as [| d0 ds] eqn:Hdocs; [congruence |].
  cbn [truthy negb].
  destruct (embed_texts (map snd (d0 :: ds)) w) as [[e | x] w1];
    cbn [fst snd]; [| reflexivity].
  destruct e as [| row rows]; reflexivity.
Qed.

Lemma embed_batches_length texts offsets :
  (forall tr input vecs,
      embeddings_create tr input = Ok vecs -> length vecs = length input) ->
  forall acc w vecs w',
    embed_batches texts offsets acc w = (Ok vecs, w') ->
    length vecs
    = length acc + length (concat (map (fun i => slice texts i B) offsets)).
Proof.
  intros Hlen. induction offsets as [| i rest IH]; intros acc w vecs w';
    cbn [embed_batches map concat].
  - unfold ret. intros [= <- _]. cbn. lia.
  - unfold bind, call_embeddings.
    destruct (embeddings_create (trace w) (slice texts i B)) as [data | e]
      eqn:Hcall; [| discriminate].
    intros H. apply IH in H. rewrite H, !length_app, (Hlen _ _ _ Hcall). lia.
Qed.

Lemma embed_texts_length texts w m w' :
  (forall tr input vecs,
      embeddings_create tr input = Ok vecs -> length vecs = length input) ->
  embed_texts texts w = (Ok m, w') -> length m = length texts.
Proof.
  intros Hlen. unfold embed_texts, bind, lift.
  destruct (embed_batches texts (range_step (length texts) B) [] w)
    as [[vecs | e] w1] eqn:Hb; [| discriminate].
  apply (embed_batches_length _ _ Hlen) in Hb. cbn [length plus] in Hb.
  fold (batches texts) in Hb. rewrite concat_batches in Hb.
  unfold np_array. destruct (rectangular vecs); [| discriminate].
  intros [= <- _]. exact Hb.
Qed.

Lemma exec_keeps_index_within_docs o w :
  (forall tr input vecs,
      embeddings_create tr input = Ok vecs -> length vecs = length input) ->
  (forall m, length (normalize_L2 m) = length m) ->
  index_within_docs w -> index_within_docs (exec o w).
Proof.
  intros Hlen Hnorm Hinv. unfold index_within_docs in *.
  destruct o as [fs | | p |]; cbn [exec].
  - destruct (upload_appends fs w) as ([extra Hd] & _ & Hi & _).
    rewrite Hi, Hd, length_app. intros idx H. specialize (Hinv idx H). lia.
  - destruct (docs w) as [| d0 ds] eqn:Hdocs.
    { assert (Hb : snd (build w) = w)
        by (unfold build, bind, get, ret; now rewrite Hdocs).
      rewrite Hb, Hdocs. exact Hinv. }
    assert (Hne : docs w <> []) by (rewrite Hdocs; discriminate).
    rewrite <- Hdocs in Hinv. clear Hdocs.
    pose proof (build_paths w Hne) as Hp. cbv zeta in Hp.
    pose proof (embed_texts_globals (map snd (docs w)) w) as (Hg1 & _ & Hg3).
    destruct (embed_texts (map snd (docs w)) w) as [[e | x] w1] eqn:He;
      cbn [fst snd] in *.
    + destruct e as [| row rows]; rewrite Hp; cbn [snd docs index].
      * rewrite Hg1, Hg3. exact Hinv.
      * intros idx [= <-]. unfold ntotal. cbn [xb]. rewrite Hnorm.
        rewrite (embed_texts_length _ _ Hlen He), length_map, Hg1. lia.
    + rewrite Hp. cbn [snd]. rewrite Hg1, Hg3. exact Hinv.
  - destruct (ask_globals p w) as (Hd & _ & Hi). now rewrite Hd, Hi.
  - cbn. discriminate.
Qed.

End BuildResult.

(** X10: a build that returns over a non-empty store replaces both globals
    together: the index holds the normalized rows of the array the embedding
    step returned, [embs] holds the same normalized rows (the array is
    normalized in place), the dimension is the length of the first row, the
    response counts the chunks of the store, and [docs] is untouched. *)
Theorem build_success_state `{C : Collaborators}
  (w w' : World) (r : BuildResponse) :
  docs w <> [] -> build w = (Ok r, w') ->
  exists row rows,
    fst (embed_texts (map snd (docs w)) w) = Ok (row :: rows)
    /\ embs w' = Some (normalize_L2 (row :: rows))
    /\ index w' = Some {| dim := length row;
                          xb := normalize_L2 (row :: rows) |}
    /\ chunks r = Z.of_nat (length (docs w))
    /\ message r = None
    /\ docs w' = docs w.
Proof.
  intros Hd Hb. pose proof (build_paths w Hd) as Hp. cbv zeta in Hp.
  pose proof (embed_texts_globals (map snd (docs w)) w) as (Hg1 & _).
  destruct (fst (embed_texts (map snd (docs w)) w)) as [[| row rows] | x];
    rewrite Hp in Hb; try discriminate.
  injection Hb as <- <-. exists row, rows. cbn.
  rewrite length_map. now repeat split.
Qed.

(** X11: when the embedding endpoint answers with one vector per text and
    normalization keeps the number of rows, the index never covers more
    chunks than the store holds, in every reachable state, and right after a
    build that returned over a non-empty store it covers exactly the store. *)
Theorem index_size_invariant `{C : Collaborators} :
  (forall tr input vecs,
      embeddings_create tr input = Ok vecs -> length vecs = length input) ->
  (forall m, length (normalize_L2 m) = length m) ->
  (forall w idx, reachable w -> index w = Some idx ->
                 ntotal idx <= length (docs w))
  /\ (forall w w' r, docs w <> [] -> build w = (Ok r, w') ->
        exists idx, index w' = Some idx /\ ntotal idx = length (docs w')).
Proof.
  intros Hlen Hnorm. split.
  - intros w idx Hr. revert idx.
    induction Hr as [| w o _ IH].
    + discriminate.
    + now apply exec_keeps_index_within_docs.
  - intros w w' r Hd Hb. pose proof (build_paths w Hd) as Hp. cbv zeta in Hp.
    pose proof (embed_texts_globals (map snd (docs w)) w) as (Hg1 & _).
    destruct (embed_texts (map snd (docs w)) w) as [[e | x] w1] eqn:He;
      cbn [fst snd] in *.
    + destruct e as [| row rows]; rewrite Hp in Hb; [discriminate |].
      injection Hb as _ <-. eexists. split; [reflexivity |].
      unfold ntotal. cbn [xb docs]. rewrite Hnorm.
      rewrite (embed_texts_length _ _ Hlen He), length_map. now rewrite Hg1.
    + rewrite Hp in Hb. discriminate.
Qed.

(** ** Uploads *)

Section Uploads.

Context {C : Collaborators}.

Lemma upload_file_raise f added w e :
  file_chunks f = Raise e -> upload_file f added w = (Raise e, w).
Proof.
  unfold file_chunks, upload_file, bind, lift, ret.
  destruct (read_file_to_text (data f) (filename f)) as [text | x];
    [| now intros [= <-]].
  destruct (negb (truthy (strip text))); [discriminate |].
  destruct (chunk_text text) as [cs | x]; [discriminate | now intros [= <-]].
Qed.

Lemma upload_file_ok f added w cs :
  file_chunks f = Ok cs ->
  fst (upload_file f added w) = Ok (added + Z.of_nat (length cs))%Z
  /\ docs (snd (upload_file f added w)) = docs w ++ cs.
Proof.
  unfold file_chunks, upload_file, bind, lift, ret, get, set_docs.
  destruct (read_file_to_text (data f) (filename f)) as [text | x];
    [| discriminate].
  destruct (negb (truthy (strip text))).
  - intros [= <-]. cbn. now rewrite Z.add_0_r, app_nil_r.
  - destruct (chunk_text text) as [chunks0 | x]; [| discriminate].
    intros [= <-]. cbn. now rewrite fold_append_chunk, length_map.
Qed.

Lemma upload_file_blank f added w text :
  read_file_to_text (data f) (filename f) = Ok text -> blank text = true ->
  upload_file f added w = (Ok added, w).
Proof.
  intros Hr Hb. unfold upload_file, bind, lift, ret. rewrite Hr.
  now rewrite truthy_strip_blank, Hb.
Qed.

Lemma upload_loop_docs fs :
  forall added w, docs (snd (upload_loop fs added w)) = docs w ++ ingested fs.
Proof.
  induction fs as [| f rest IH]; intros added w; cbn [upload_loop ingested].
  - cbn. now rewrite app_nil_r.
  - unfold bind. destruct (file_chunks f) as [cs | e] eqn:Hf.
    + destruct (upload_file_ok f added w Hf) as [H1 H2].
      destruct (upload_file f added w) as [[a | x] w1]; cbn [fst snd] in *;
        [| discriminate].
      now rewrite IH, H2, app_assoc.
    + rewrite (upload_file_raise f added w Hf). cbn. now rewrite app_nil_r.
Qed.

Lemma upload_loop_count fs :
  forall added w a w',
    upload_loop fs added w = (Ok a, w') ->
    (a - added = Z.of_nat (length (docs w')) - Z.of_nat (length (docs w)))%Z.
Proof.
  induction fs as [| f rest IH]; intros added w a w'; cbn [upload_loop].
  - unfold ret. intros [= <- <-]. lia.
  - unfold bind. destruct (file_chunks f) as [cs | e] eqn:Hf.
    + destruct (upload_file_ok f added w Hf) as [H1 H2].
      destruct (upload_file f added w) as [[a1 | x] w1]; cbn [fst snd] in *;
        [| discriminate].
      injection H1 as ->. intros H. apply IH in H.
      rewrite H2, length_app in H. lia.
    + now rewrite (upload_file_raise f added w Hf).
Qed.

Lemma upload_loop_app pre post :
  forall added w,
    upload_loop (pre ++ post) added w
    = bind (upload_loop pre added) (upload_loop post) w.
Proof.
  induction pre as [| f pre IH]; intros added w; cbn [app upload_loop].
  - reflexivity.
  - unfold bind. destruct (upload_file f added w) as [[a | x] w1];
      [| reflexivity].
    rewrite IH. reflexivity.
Qed.

Lemma ingested_labelled fs :
  Forall (fun d => (exists f, In f fs /\ fst d = filename f)
                   /\ snd d <> [] /\ strip (snd d) = snd d) (ingested fs).
Proof.
  induction fs as [| f rest IH]; cbn [ingested]; [constructor |].
  destruct (file_chunks f) as [cs | e] eqn:Hf; [| constructor].
  apply Forall_app. split.
  - unfold file_chunks in Hf.
    destruct (read_file_to_text (data f) (filename f)) as [text | x];
      [| discriminate].
    destruct (negb (truthy (strip text))); [injection Hf as <-; constructor |].
    destruct (chunk_text text) as [chunks0 | x] eqn:Hc; [| discriminate].
    injection Hf as <-. apply Forall_forall. intros d Hd.
    apply in_map_iff in Hd as [c [<- Hin]].
    pose proof (chunk_text_forall_trimmed _ Hc) as Ht.
    rewrite Forall_forall in Ht. cbn. split; [| now apply Ht].
    exists f. split; [now left | reflexivity].
  - eapply Forall_impl; [| exact IH]. cbn.
    intros d ([f' [Hin Hn]] & Hrest). split; [| exact Hrest].
    exists f'. split; [now right | exact Hn].
Qed.

End Uploads.

(** X1: the response of an upload that returns accounts for the store:
    [files] is the number of files received, skipped ones included,
    [total_chunks] is the size of the store afterwards, and [chunks_added] is
    exactly its growth. *)
Theorem upload_accounting `{C : Collaborators}
  (fs : list UploadFile) (w w' : World) (r : UploadResponse) :
  upload fs w = (Ok r, w') ->
  files r = Z.of_nat (length fs)
  /\ total_chunks r = Z.of_nat (length (docs w'))
  /\ (chunks_added r
      = Z.of_nat (length (docs w')) - Z.of_nat (length (docs w)))%Z.
Proof.
  unfold upload, bind, get, ret.
  destruct (upload_loop fs 0%Z w) as [[a | x] w1] eqn:Hl; [| discriminate].
  intros [= <- <-]. cbn. apply upload_loop_count in Hl.
  repeat split. lia.
Qed.

(** X2: an upload is not all-or-nothing.  When the files before [f] go
    through and [f] fails, in extraction or in the tokenizer, the request
    raises, nothing of [f] or of the later files is stored, and the chunks of
    the files before [f] stay in the store: the state is the one an upload of
    those files alone leaves. *)
Theorem upload_partial_on_failure `{C : Collaborators}
  (pre rest : list UploadFile) (f : UploadFile) (w : World) (e : exn) :
  raises (fst (upload pre w)) = false ->
  read_file_to_text (data f) (filename f) = Raise e
  \/ (exists text, read_file_to_text (data f) (filename f) = Ok text
                   /\ blank text = false /\ chunk_text text = Raise e) ->
  upload (pre ++ f :: rest) w = (Raise e, snd (upload pre w)).
Proof.
  intros Hpre Hf.
  assert (Hfc : file_chunks f = Raise e).
  { unfold file_chunks. destruct Hf as [-> | (text & -> & Hb & Hc)];
      [reflexivity |].
    now rewrite truthy_strip_blank, Hb, Hc. }
  unfold upload in *. unfold bind in Hpre |- *. rewrite upload_loop_app.
  unfold bind at 1.
  destruct (upload_loop pre 0%Z w) as [[a | x] w1]; cbn [fst snd] in *;
    [| discriminate].
  cbn [upload_loop]. unfold bind at 1.
  now rewrite (upload_file_raise f a w1 Hfc).
Qed.

(** X3: what an upload appends depends on the files alone, not on the state:
    the same records are appended after whatever the store holds, in order,
    so uploading the same files again appends them again.  Each appended
    record carries the name of one of the uploaded files and a non-empty,
    trimmed chunk.  [embs], [index] and the call history are untouched: an
    upload calls no endpoint and leaves an existing index as it is. *)
Theorem upload_appends_by_files `{C : Collaborators} (fs : list UploadFile) :
  exists extra,
    Forall (fun d => (exists f, In f fs /\ fst d = filename f)
                     /\ snd d <> [] /\ strip (snd d) = snd d) extra
    /\ forall w,
         docs (snd (upload fs w)) = docs w ++ extra
         /\ embs (snd (upload fs w)) = embs w
         /\ index (snd (upload fs w)) = index w
         /\ trace (snd (upload fs w)) = trace w.
Proof.
  exists (ingested fs). split; [apply ingested_labelled |].
  intros w. destruct (upload_appends fs w) as (_ & He & Hi & Ht).
  repeat split; trivial.
  unfold upload, bind, get, ret.
  pose proof (upload_loop_docs fs 0%Z w) as Hd.
  destruct (upload_loop fs 0%Z w) as [[a | x] w1]; exact Hd.
Qed.

(** X16: files whose extracted text is empty or whitespace-only (an
    unsupported format, a document without text) are skipped without an
    error: the upload returns with [chunks_added] = 0 and the state is
    unchanged. *)
Theorem upload_skips_blank `{C : Collaborators}
  (fs : list UploadFile) (w : World) :
  Forall (fun f => exists text,
              read_file_to_text (data f) (filename f) = Ok text
              /\ blank text = true) fs ->
  upload fs w
  = (Ok {| files := Z.of_nat (length fs); chunks_added := 0;
           total_chunks := Z.of_nat (length (docs w)) |}, w).
Proof.
  intros Hfs. unfold upload, bind, get, ret.
  assert (Hl : upload_loop fs 0%Z w = (Ok 0%Z, w)).
  { generalize 0%Z. induction Hfs as [| f rest (text & Hr & Hb) _ IH];
      intros a; cbn [upload_loop]; [reflexivity |].
    unfold bind. now rewrite (upload_file_blank f a w Hr Hb). }
  now rewrite Hl.
Qed.

(** ** Which branch reads a file *)

Lemma str_eqb_eq a : forall b, str_eqb a b = true -> a = b.
Proof.
  induction a as [| x a IH]; intros [| y b]; cbn; try discriminate;
    [reflexivity |].
  intros H. apply andb_prop in H as [Hx Hab].
  apply N.eqb_eq in Hx. subst y. f_equal. now apply IH.
Qed.

Lemma endswith_split s suffix :
  endswith s suffix = true -> exists pre, s = pre ++ suffix.
Proof.
  unfold endswith. intros H. apply andb_prop in H as [_ H].
  apply str_eqb_eq in H. exists (firstn (length s - length suffix) s).
  remember (length s - length suffix) as k. rewrite <- H.
  symmetry. apply firstn_skipn.
Qed.

(** Two suffixes of one name end with the same character. *)
Lemma endswith_same_last s p c p' c' :
  endswith s (p ++ [c]) = true -> endswith s (p' ++ [c']) = true -> c = c'.
Proof.
  intros H1 H2.
  apply endswith_split in H1 as [pre1 H1].
  apply endswith_split in H2 as [pre2 H2].
  rewrite H1, !app_assoc in H2. now apply app_inj_tail in H2 as [_ H2].
Qed.

Lemma pdf_name_not_text n :
  endswith n (lit ".pdf") = true ->
  endswith n (lit ".txt") = false /\ endswith n (lit ".md") = false.
Proof.
  intros Hpdf. split.
  - destruct (endswith n (lit ".txt")) eqn:H; [| reflexivity].
    pose proof (@endswith_same_last n (lit ".pd") 102%N (lit ".tx") 116%N
                  Hpdf H). discriminate.
  - destruct (endswith n (lit ".md")) eqn:H; [| reflexivity].
    pose proof (@endswith_same_last n (lit ".pd") 102%N (lit ".m") 100%N
                  Hpdf H). discriminate.
Qed.

Lemma blank_join sep parts :
  blank sep = true -> Forall (fun s => blank s = true) parts ->
  blank (join sep parts) = true.
Proof.
  intros Hsep. induction 1 as [| p rest Hp Hrest IH]; [reflexivity |].
  cbn [join]. destruct rest as [| p2 rest]; [exact Hp |].
  rewrite !blank_app, Hp, Hsep. exact IH.
Qed.

(** X18: a name that ends in .pdf in any letter case is read as a PDF, and
    once the reader has opened the document the call returns: the text has
    one segment per page, joined by blank lines, a page without text or whose
    extraction raises giving an empty segment; when every page is blank so is
    the whole text. *)
Theorem read_pdf_by_suffix `{C : Collaborators}
  (b : bytes) (name : str) (pages : list page) :
  endswith (lower name) (lit ".pdf") = true ->
  PdfReader_pages b = Ok pages ->
  read_file_to_text b name = Ok (join (NL ++ NL) (map page_text pages))
  /\ (forall p e, page_extract_text p = Raise e -> page_text p = [])
  /\ (Forall (fun p => blank (page_text p) = true) pages ->
      blank (join (NL ++ NL) (map page_text pages)) = true).
Proof.
  intros Hpdf Hpages. destruct (pdf_name_not_text _ Hpdf) as [Htxt Hmd].
  split; [| split].
  - unfold read_file_to_text. now rewrite Htxt, Hmd, Hpdf, Hpages.
  - intros p e H. unfold page_text. now rewrite H.
  - intros Hall. apply blank_join; [reflexivity |].
    apply Forall_map. exact Hall.
Qed.


(** ** More on [ask] *)

Lemma bind_get `{C : Collaborators} {A} (k : World -> M A) (w : World) :
  bind get k w = k w w.
Proof. reflexivity. Qed.

(** [ask] reads [top_k] only through the clamped value. *)
Lemma ask_top_k_only `{C : Collaborators} (q : str) (k k' : option Z) (w : World) :
  docs w = []
  \/ clamp_top_k (top_k_or_default k) (length (docs w))
     = clamp_top_k (top_k_or_default k') (length (docs w)) ->
  ask {| question := q; top_k := k |} w
  = ask {| question := q; top_k := k' |} w.
Proof.
  intros [Hd | Hk].
  - rewrite !ask_insufficient by now right. reflexivity.
  - unfold ask. rewrite !bind_get. cbn [question top_k]. cbv zeta.
    now rewrite Hk.
Qed.

(** X14: how [ask] treats the requested top_k.  A top_k of 0 is answered
    exactly as a missing one, a negative top_k exactly as top_k = 1, and a
    top_k above the number of chunks in the store exactly as that number:
    the response, the state and the calls made are the same. *)
Theorem effective_top_k `{C : Collaborators} (q : str) (k : Z) (w : World) :
  ask {| question := q; top_k := Some 0%Z |} w
  = ask {| question := q; top_k := None |} w
  /\ ((k < 0)%Z ->
      ask {| question := q; top_k := Some k |} w
      = ask {| question := q; top_k := Some 1%Z |} w)
  /\ ((Z.of_nat (length (docs w)) < k)%Z ->
      ask {| question := q; top_k := Some k |} w
      = ask {| question := q; top_k := Some (Z.of_nat (length (docs w))) |} w).
Proof.
  split; [| split].
  - apply ask_top_k_only. now right.
  - intros Hk. apply ask_top_k_only. right.
    unfold clamp_top_k, top_k_or_default. cbn [Z.eqb].
    replace (k =? 0)%Z with false by (symmetry; apply Z.eqb_neq; lia). lia.
  - intros Hk. apply ask_top_k_only.
    destruct (docs w) as [| d ds] eqn:Hd; [now left | right].
    unfold clamp_top_k, top_k_or_default.
    replace (k =? 0)%Z with false by (symmetry; apply Z.eqb_neq; lia).
    replace (Z.of_nat (length (d :: ds)) =? 0)%Z with false
      by (symmetry; apply Z.eqb_neq; cbn [length]; lia).
    lia.
Qed.

Section AskCalls.

Context {C : Collaborators}.

Lemma lookup_hits_in ds idxs hits :
  lookup_hits ds idxs = Ok hits -> Forall (fun h => In h ds) hits.
Proof.
  intros H. apply lookup_hits_spec in H.
  induction H as [| j h js hs Hj _ IH]; constructor; [| exact IH].
  now apply getitem_in in Hj.
Qed.

Lemma join_contains sep parts :
  forall i x, nth_error parts i = Some x ->
              exists pre post, join sep parts = pre ++ x ++ post.
Proof.
  induction parts as [| p rest IH]; intros [| i] x; cbn [nth_error];
    try discriminate.
  - intros [= <-]. exists []. cbn [join app]. destruct rest as [| p2 rest].
    + exists []. now rewrite app_nil_r.
    + eexists. reflexivity.
  - intros H. destruct rest as [| p2 rest]; [now destruct i |].
    destruct (IH i x H) as (pre & post & Hj).
    exists (p ++ sep ++ pre), post. cbn [join] in *. rewrite Hj.
    now rewrite <- !app_assoc.
Qed.

End AskCalls.

(** X12: the calls of one [ask], whatever its outcome: none; or the embedding
    of the question alone; or that embedding followed by one generation call
    whose prompt is built from the question and chunks that are all records
    of the store.  Generation is never called first, never twice, and never
    on text that is not in the store. *)
Theorem ask_calls `{C : Collaborators} (p : AskPayload) (w : World) :
  trace (snd (ask p w)) = trace w
  \/ trace (snd (ask p w)) = trace w ++ [EmbedCall [question p]]
  \/ exists hits,
       Forall (fun h => In h (docs w)) hits
       /\ trace (snd (ask p w))
          = trace w ++ [EmbedCall [question p];
                        ChatCall (make_prompt (question p) hits)].
Proof.
  unfold ask, bind, get, ret, lift, call_embeddings, call_chat.
  destruct (is_none (index w) || negb (truthy (docs w))); [now left |].
  destruct (negb (truthy (strip (question p)))); [now left |].
  destruct (embeddings_create (trace w) [question p]) as [resp | e];
    [| right; now left].
  destruct (first_item _) as [q | e]; [| right; now left].
  match goal with
  | |- context [search ?q ?k ?w1] =>
      pose proof (search_world q k w1) as Hs;
      destruct (search q k w1) as [[DI | e] w2]; cbn [snd] in Hs; subst w2
  end; [| right; now left].
  destruct (first_item (snd DI)) as [idxs | e]; [| right; now left].
  destruct (lookup_hits (docs w) idxs) as [hits | e] eqn:Hh;
    [| right; now left].
  right. right. exists hits. split; [now apply lookup_hits_in in Hh |].
  destruct (chat_completions_create _ _) as [ans | e];
    cbn [snd trace record_call]; now rewrite <- app_assoc.
Qed.

(** X13: when the embedding of the question raises, [ask] raises the same
    exception, the generation endpoint is not called, and the globals are
    what they were. *)
Theorem ask_embedding_failure `{C : Collaborators}
  (p : AskPayload) (w : World) (e : exn) :
  index w <> None -> docs w <> [] -> blank (question p) = false ->
  embeddings_create (trace w) [question p] = Raise e ->
  ask p w = (Raise e, {| docs := docs w; embs := embs w; index := index w;
                         trace := trace w ++ [EmbedCall [question p]] |}).
Proof.
  intros Hi Hd Hb He.
  unfold ask, bind, get, ret, lift, call_embeddings.
  destruct (index w) eqn:Hidx; [| congruence].
  destruct (docs w) eqn:Hdocs; [congruence |]. cbn [is_none truthy negb orb].
  rewrite truthy_strip_blank, Hb. cbn [negb]. rewrite He.
  unfold record_call. now rewrite Hidx, Hdocs.
Qed.

(** X17: the prompt is always a system message followed by a user message;
    the system message does not depend on the request; the user message
    begins with the question and contains, for the i-th hit (from 0), the
    item "[i+1] (source)" followed by a line break and the full text of the
    chunk. *)
Theorem make_prompt_contents (question : str) (hits : list (str * str)) :
  exists user,
    make_prompt question hits
    = [ {| role := lit "system"; content := system_prompt |};
        {| role := lit "user"; content := user |} ]
    /\ (exists post, user = lit "Question:" ++ NL ++ question ++ post)
    /\ forall i s t,
         nth_error hits i = Some (s, t) ->
         exists pre post,
           user = pre ++ (lit "[" ++ str_of_int (Z.of_nat i + 1) ++ lit "] ("
                          ++ s ++ lit ")" ++ NL ++ t) ++ post.
Proof.
  unfold make_prompt. eexists. split; [reflexivity |]. split.
  - eexists. reflexivity.
  - intros i s t Hnth.
    destruct (@join_contains (NL ++ NL) (map context_item (enumerate hits)) i
                (context_item (Z.of_nat i, (s, t)))) as (pre & post & Hj).
    { unfold enumerate. rewrite nth_error_map, nth_error_enumerate_from, Hnth.
      reflexivity. }
    rewrite Hj. unfold context_item.
    exists (lit "Question:" ++ NL ++ question ++ NL ++ NL
            ++ lit "Context chunks:" ++ NL ++ pre).
    exists (post ++ NL ++ NL ++ lit "Instructions:" ++ NL
            ++ lit "- If you use multiple chunks, cite like [1][3]." ++ NL
            ++ lit "- Be concise and precise.").
    repeat rewrite <- app_assoc. reflexivity.
Qed.

(** ** More on the branches of [read_file_to_text] *)

Lemma docx_name_not_other n :
  endswith n (lit ".docx") = true ->
  endswith n (lit ".txt") = false /\ endswith n (lit ".md") = false
  /\ endswith n (lit ".pdf") = false.
Proof.
  intros Hx. repeat split.
  - destruct (endswith n (lit ".txt")) eqn:H; [| reflexivity].
    pose proof (@endswith_same_last n (lit ".doc") 120%N (lit ".tx") 116%N
                  Hx H). discriminate.
  - destruct (endswith n (lit ".md")) eqn:H; [| reflexivity].
    pose proof (@endswith_same_last n (lit ".doc") 120%N (lit ".m") 100%N
                  Hx H). discriminate.
  - destruct (endswith n (lit ".pdf")) eqn:H; [| reflexivity].
    pose proof (@endswith_same_last n (lit ".doc") 120%N (lit ".pd") 102%N
                  Hx H). discriminate.
Qed.

Lemma doc_name_not_other n :
  endswith n (lit ".doc") = true ->
  endswith n (lit ".txt") = false /\ endswith n (lit ".md") = false
  /\ endswith n (lit ".pdf") = false /\ endswith n (lit ".docx") = false.
Proof.
  intros Hx. repeat split.
  - destruct (endswith n (lit ".txt")) eqn:H; [| reflexivity].
    pose proof (@endswith_same_last n (lit ".do") 99%N (lit ".tx") 116%N
                  Hx H). discriminate.
  - destruct (endswith n (lit ".md")) eqn:H; [| reflexivity].
    pose proof (@endswith_same_last n (lit ".do") 99%N (lit ".m") 100%N
                  Hx H). discriminate.
  - destruct (endswith n (lit ".pdf")) eqn:H; [| reflexivity].
    pose proof (@endswith_same_last n (lit ".do") 99%N (lit ".pd") 102%N
                  Hx H). discriminate.
  - destruct (endswith n (lit ".docx")) eqn:H; [| reflexivity].
    pose proof (@endswith_same_last n (lit ".do") 99%N (lit ".doc") 120%N
                  Hx H). discriminate.
Qed.

Lemma length_flat_map_rows {A B} (f : A -> B) (ts : list (list A)) :
  length (flat_map (fun t => map f t) ts) = length (concat ts).
Proof.
  induction ts as [| t ts IH]; cbn; [reflexivity |].
  now rewrite !length_app, length_map, IH.
Qed.

(** X19: a name that ends in .docx in any letter case is read with the .docx
    reader (never with textract): the text is one line per paragraph that has
    text, then one line per table row, the cells that have text joined by
    tabs.  Paragraphs without text are dropped, but every row gives a line,
    even when all its cells are empty. *)
Theorem read_docx_by_suffix `{C : Collaborators}
  (b : bytes) (name : str) (d : Docx) :
  endswith (lower name) (lit ".docx") = true ->
  Document b = Ok d ->
  read_file_to_text b name
  = Ok (join NL (filter truthy (paragraphs d)
                 ++ map (fun row => join TAB (filter truthy row))
                      (concat (tables d))))
  /\ length (docx_parts d)
     = length (filter truthy (paragraphs d)) + length (concat (tables d)).
Proof.
  intros Hx Hd. destruct (docx_name_not_other _ Hx) as (Ht & Hm & Hp).
  split.
  - unfold read_file_to_text. rewrite Ht, Hm, Hp, Hx, Hd. cbn [orb].
    unfold docx_parts. rewrite flat_map_concat_map, concat_map. reflexivity.
  - unfold docx_parts. now rewrite length_app, length_flat_map_rows.
Qed.

(** X20: two kinds of file give the empty text whatever their bytes and
    whatever the parsers would do with them: a name with none of the five
    known suffixes, and a .doc name when textract is not installed. *)
Theorem read_file_to_text_empty `{C : Collaborators} (b : bytes) (name : str) :
  (endswith (lower name) (lit ".doc") = true /\ HAS_TEXTRACT = false)
  \/ (endswith (lower name) (lit ".txt") = false
      /\ endswith (lower name) (lit ".md") = false
      /\ endswith (lower name) (lit ".pdf") = false
      /\ endswith (lower name) (lit ".docx") = false
      /\ endswith (lower name) (lit ".doc") = false) ->
  read_file_to_text b name = Ok [].
Proof.
  intros [[Hdoc Hno] | (H1 & H2 & H3 & H4 & H5)].
  - destruct (doc_name_not_other _ Hdoc) as (H1 & H2 & H3 & H4).
    unfold read_file_to_text. now rewrite H1, H2, H3, H4, Hdoc, Hno.
  - now apply read_file_to_text_unsupported.
Qed.

(** ** Short texts and whole-store builds *)

Lemma ref_offsets_short n : 1 <= n <= 340 -> ref_offsets n = [0].
Proof.
  intros Hn. rewrite ref_offsets_multiples.
  assert (Hc : window_count n = 1).
  { unfold window_count.
    pose proof (Nat.div_mod_eq (n + 339) 340) as Hd.
    pose proof (Nat.mod_upper_bound (n + 339) 340) as Hm. lia. }
  now rewrite Hc.
Qed.

(** X21: a non-blank text of at most 340 tokens, with a tokenizer that
    decodes its tokens back to the text, gives exactly one chunk: the text,
    trimmed. *)
Theorem chunk_text_short `{C : Collaborators} (text : str) (tokens : list Z) :
  enc_encode text = Ok tokens -> enc_decode tokens = text ->
  1 <= length tokens <= 340 -> blank text = false ->
  chunk_text text = Ok [strip text].
Proof.
  intros Henc Hdec Hlen Hb. unfold chunk_text. rewrite Henc. f_equal.
  rewrite chunk_loop_windows, (ref_offsets_short Hlen). cbn [map].
  unfold window, slice. rewrite chunk_tokens_value. cbn [skipn].
  rewrite firstn_all2 by lia. rewrite Hdec. cbn [filter].
  now rewrite truthy_strip_blank, Hb.
Qed.

(** X22: a build that returns re-embeds the whole store, in store order: the
    calls it adds to the history are embedding calls only, and their inputs,
    concatenated, are the texts of all the chunks of [docs]. *)
Theorem build_embeds_whole_store `{C : Collaborators}
  (w w' : World) (r : BuildResponse) :
  docs w <> [] -> build w = (Ok r, w') ->
  exists bs,
    trace w' = trace w ++ map EmbedCall bs
    /\ concat bs = map snd (docs w).
Proof.
  intros Hd Hb. pose proof (build_paths w Hd) as Hp. cbv zeta in Hp.
  destruct (embed_batches_trace (map snd (docs w))
              (range_step (length (map snd (docs w))) B) [] w)
    as (m & _ & Ht & Hok & _).
  unfold embed_texts, bind, lift in Hp.
  destruct (embed_batches (map snd (docs w))
              (range_step (length (map snd (docs w))) B) [] w)
    as [[vecs | x] w1]; cbn [fst snd] in *.
  - specialize (Hok eq_refl). subst m. rewrite firstn_all in Ht.
    exists (batches (map snd (docs w))). split; [| apply concat_batches].
    unfold batches. rewrite map_map.
    destruct (np_array vecs) as [[| row rows] | x]; rewrite Hp in Hb;
      try discriminate.
    injection Hb as _ <-. exact Ht.
  - rewrite Hp in Hb. discriminate.
Qed.

(** ** Runs for the further properties *)

Lemma toy_embed_pointwise budget tr input vecs :
  Toy.embed budget tr input = Ok vecs -> vecs = map Toy.vector_of input.
Proof.
  unfold Toy.embed. destruct (length tr <? budget); [| discriminate].
  now intros [= <-].
Qed.

Lemma toy_embed_length budget tr input vecs :
  Toy.embed budget tr input = Ok vecs -> length vecs = length input.
Proof.
  intros H. apply toy_embed_pointwise in H. subst vecs. apply length_map.
Qed.

Example upload_then_upload_again :
  map fst (docs (exec (C := Toy.world 0) (OpUpload [Toy.cat_file])
                   (Toy.uploaded 0)))
  = [lit "notes.txt"; lit "notes.txt"].
Proof. vm_compute. reflexivity. Qed.

Lemma upload_accounting_witness :
  let r := {| files := 3; chunks_added := 2; total_chunks := 3 |} in
  files r = 3%Z
  /\ total_chunks r
     = Z.of_nat (length (docs (snd (upload (C := Toy.world 0)
                  [Toy.cat_file; Toy.picture; Toy.dog_file] (Toy.uploaded 0)))))
  /\ (chunks_added r
      = Z.of_nat (length (docs (snd (upload (C := Toy.world 0)
                   [Toy.cat_file; Toy.picture; Toy.dog_file] (Toy.uploaded 0)))))
        - Z.of_nat (length (docs (Toy.uploaded 0))))%Z.
Proof.
  intros r.
  apply (@upload_accounting (Toy.world 0)
           [Toy.cat_file; Toy.picture; Toy.dog_file] (Toy.uploaded 0)).
  vm_compute. reflexivity.
Defined.

Lemma upload_partial_on_failure_witness :
  upload (C := Toy.world 0) ([Toy.cat_file] ++ Toy.empty_pdf :: [Toy.dog_file])
    init_world
  = (Raise (External "EmptyFileError"),
     snd (upload (C := Toy.world 0) [Toy.cat_file] init_world)).
Proof.
  apply (@upload_partial_on_failure (Toy.world 0)).
  - vm_compute. reflexivity.
  - left. vm_compute. reflexivity.
Defined.

Lemma chunk_text_chunks_trimmed_witness :
  Forall (fun c => c <> [] /\ strip c = c) [lit "a cat"]
  /\ exists tokens,
       enc_encode (Collaborators := Toy.world 0) (lit "  a cat  ") = Ok tokens
       /\ length [lit "a cat"] <= (length tokens + 339) / 340.
Proof.
  apply (@chunk_text_chunks_trimmed (Toy.world 0) (lit "  a cat  ")).
  vm_compute. reflexivity.
Defined.

Lemma chunk_windows_cover_witness :
  let tokens := repeat 7%Z 700 in
  let o := 699 / 340 * 340 in
  In o (ref_offsets (length tokens))
  /\ o <= 699 < o + 400
  /\ nth_error (window tokens o) (699 - o) = nth_error tokens 699.
Proof.
  intros tokens.
  apply (proj2 (@chunk_windows_cover (Toy.world 0) tokens)).
  subst tokens. rewrite repeat_length. lia.
Defined.

Lemma chunk_windows_overlap_witness :
  let tokens := repeat 7%Z 700 in
  let a := firstn 400 (skipn (0 * 340) tokens) in
  let b := firstn 400 (skipn ((0 + 1) * 340) tokens) in
  nth_error (chunk_loop (C := Toy.world 0) tokens 0 []) 0
  = Some (enc_decode (Collaborators := Toy.world 0) a)
  /\ nth_error (chunk_loop (C := Toy.world 0) tokens 0 []) (0 + 1)
     = Some (enc_decode (Collaborators := Toy.world 0) b)
  /\ firstn 60 b = skipn 340 a
  /\ length (skipn 340 a) = Nat.min 60 (length tokens - (0 + 1) * 340).
Proof.
  intros tokens.
  apply (@chunk_windows_overlap (Toy.world 0) tokens 0).
  subst tokens. rewrite repeat_length. lia.
Defined.

Lemma embed_batches_partition_witness :
  exists bs,
    trace (snd (embed_texts (C := Toy.world 9) [lit "ab"; lit "c"] init_world))
    = trace (init_world (C := Toy.world 9)) ++ map EmbedCall bs
    /\ concat bs = [lit "ab"; lit "c"]
    /\ Forall (fun b => 1 <= length b <= 1000) bs
    /\ length bs = (length [lit "ab"; lit "c"] + 999) / 1000.
Proof.
  apply (@embed_batches_partition (Toy.world 9) [lit "ab"; lit "c"] init_world
           (snd (embed_texts (C := Toy.world 9) [lit "ab"; lit "c"] init_world))
           [[2%Z; 1%Z]; [1%Z; 1%Z]]).
  vm_compute. reflexivity.
Defined.

(** 2001 texts are three batches; the endpoint answers the first call and
    fails the second: the third batch is never sent. *)
Lemma embed_texts_calls_witness :
  let texts := repeat (lit "a") 2001 in
  length (batches texts) = 3
  /\ trace (snd (embed_texts (C := Toy.world 1) texts init_world))
     = trace (init_world (C := Toy.world 1))
       ++ map EmbedCall (firstn 2 (batches texts)).
Proof.
  intros texts. split; [vm_compute; reflexivity |].
  destruct (@embed_texts_calls (Toy.world 1) texts init_world)
    as (m & Hm & Hok & Hend & _).
  assert (Hsecond :
            1 < m ->
            raises (embeddings_create (Collaborators := Toy.world 1)
                      (trace (init_world (C := Toy.world 1))
                       ++ map EmbedCall (firstn 1 (batches texts)))
                      (slice texts 1000 B)) = false).
  { intros H1. apply (Hok 1 (slice texts 1000 B) H1). vm_compute. reflexivity. }
  destruct Hend as [(Hall & _) | (b & e & Hb & Hc & _ & Htr)].
  - exfalso. assert (H1 : 1 < m) by (rewrite Hall; vm_compute; lia).
    apply Hsecond in H1. vm_compute in H1. discriminate.
  - destruct m as [| [| m]].
    + exfalso. vm_compute in Hb. injection Hb as <-. vm_compute in Hc.
      discriminate.
    + exact Htr.
    + exfalso. assert (H1 : 1 < S (S m)) by lia.
      apply Hsecond in H1. vm_compute in H1. discriminate.
Defined.

Lemma embed_texts_aligned_witness :
  [[2%Z; 1%Z]; [1%Z; 1%Z]] = map Toy.vector_of [lit "ab"; lit "c"].
Proof.
  apply (@embed_texts_aligned (Toy.world 9) Toy.vector_of
           [lit "ab"; lit "c"] init_world
           (snd (embed_texts (C := Toy.world 9) [lit "ab"; lit "c"] init_world))).
  - apply toy_embed_pointwise.
  - vm_compute. reflexivity.
Defined.

Lemma build_success_state_witness :
  exists row rows,
    fst (embed_texts (C := Toy.world 9) (map snd (docs (Toy.uploaded 9)))
           (Toy.uploaded 9)) = Ok (row :: rows)
    /\ embs (Toy.indexed 9) = Some (row :: rows)
    /\ index (Toy.indexed 9)
       = Some (@Build_Index (Toy.world 9) (length row) (row :: rows))
    /\ chunks {| chunks := 1; message := None |}
       = Z.of_nat (length (docs (Toy.uploaded 9)))
    /\ message {| chunks := 1; message := None |} = None
    /\ docs (Toy.indexed 9) = docs (Toy.uploaded 9).
Proof.
  apply (@build_success_state (Toy.world 9) (Toy.uploaded 9) (Toy.indexed 9)).
  - vm_compute. discriminate.
  - vm_compute. reflexivity.
Defined.

Lemma index_size_invariant_witness :
  ntotal (Toy.cat_index 9) <= length (docs (Toy.stale 9)).
Proof.
  apply (proj1 (@index_size_invariant (Toy.world 9)
                  (@toy_embed_length 9) (fun m => eq_refl))).
  - apply toy_stale_reachable.
  - vm_compute. reflexivity.
Defined.

Lemma ask_embedding_failure_witness :
  fst (ask (C := Toy.world 1) (what_sat None) (Toy.indexed 1))
  = Raise (External "RateLimitError").
Proof.
  rewrite (@ask_embedding_failure (Toy.world 1) (what_sat None) (Toy.indexed 1)
             (External "RateLimitError")).
  - reflexivity.
  - vm_compute. discriminate.
  - vm_compute. discriminate.
  - vm_compute. reflexivity.
  - vm_compute. reflexivity.
Defined.

Lemma effective_top_k_witness :
  ask (C := Toy.world 9) {| question := lit "What sat?"; top_k := Some (-3)%Z |}
    (Toy.stale 9)
  = ask (C := Toy.world 9) {| question := lit "What sat?"; top_k := Some 1%Z |}
      (Toy.stale 9).
Proof.
  apply (proj1 (proj2 (@effective_top_k (Toy.world 9) (lit "What sat?")
                         (-3)%Z (Toy.stale 9)))).
  lia.
Defined.


Lemma upload_skips_blank_witness :
  upload (C := Toy.world 0) [Toy.blank_txt; Toy.picture] (Toy.uploaded 0)
  = (Ok {| files := 2; chunks_added := 0; total_chunks := 1 |}, Toy.uploaded 0).
Proof.
  apply (@upload_skips_blank (Toy.world 0) [Toy.blank_txt; Toy.picture]
           (Toy.uploaded 0)).
  repeat constructor; eexists; split; vm_compute; reflexivity.
Defined.

Lemma make_prompt_contents_witness :
  exists user pre post,
    make_prompt (lit "q") [(lit "a.txt", lit "one"); (lit "b.md", lit "two")]
    = [ {| role := lit "system"; content := system_prompt |};
        {| role := lit "user"; content := user |} ]
    /\ user = pre ++ (lit "[" ++ str_of_int (Z.of_nat 1 + 1) ++ lit "] ("
                      ++ lit "b.md" ++ lit ")" ++ NL ++ lit "two") ++ post.
Proof.
  destruct (make_prompt_contents (lit "q")
              [(lit "a.txt", lit "one"); (lit "b.md", lit "two")])
    as (user & Hm & _ & Hitems).
  destruct (Hitems 1 (lit "b.md") (lit "two") eq_refl) as (pre & post & Hu).
  exists user, pre, post. now split.
Defined.

Lemma read_pdf_by_suffix_witness :
  read_file_to_text (C := Toy.world 0) (list_byte_of_string " ")
    (lit "Report.PDF")
  = Ok (join (NL ++ NL)
          (map (page_text (C := Toy.world 0))
             [Ok (Some (lit " ")); Raise (External "page"); Ok None])).
Proof.
  apply (@read_pdf_by_suffix (Toy.world 0) (list_byte_of_string " ")
           (lit "Report.PDF")).
  - vm_compute. reflexivity.
  - vm_compute. reflexivity.
Defined.

Lemma read_docx_by_suffix_witness :
  length (docx_parts (Toy.memo (list_byte_of_string "hi"))) = 1 + 2.
Proof.
  apply (@read_docx_by_suffix Toy.office (list_byte_of_string "hi")
           (lit "Memo.DOCX") (Toy.memo (list_byte_of_string "hi"))).
  - vm_compute. reflexivity.
  - reflexivity.
Defined.

Lemma read_file_to_text_empty_witness :
  read_file_to_text (C := Toy.world 0) (list_byte_of_string "old") (lit "old.DOC")
  = Ok [].
Proof.
  apply (@read_file_to_text_empty (Toy.world 0)).
  left. split; vm_compute; reflexivity.
Defined.

Lemma chunk_text_short_witness :
  chunk_text (C := Toy.world 0) (lit "  a cat  ") = Ok [strip (lit "  a cat  ")].
Proof.
  apply (@chunk_text_short (Toy.world 0) (lit "  a cat  ")
           (map Z.of_N (lit "  a cat  "))).
  - reflexivity.
  - vm_compute. reflexivity.
  - vm_compute. lia.
  - vm_compute. reflexivity.
Defined.

Lemma build_embeds_whole_store_witness :
  exists bs,
    trace (Toy.indexed 9) = trace (Toy.uploaded 9) ++ map EmbedCall bs
    /\ concat bs = map snd (docs (Toy.uploaded 9)).
Proof.
  apply (@build_embeds_whole_store (Toy.world 9) (Toy.uploaded 9)
           (Toy.indexed 9) {| chunks := 1; message := None |}).
  - vm_compute. discriminate.
  - vm_compute. reflexivity.
Defined.
